(** * UniformReplay: the circular experience store of surreal.replay

    A shallow embedding of [surreal/replay/uniform_replay.py].  The store is
    a Python list [_memory] that grows up to [_maxsize] entries together with
    a write cursor [_next_idx].  Python integers are modelled as [Z], lists as
    [list], and a raised exception keeps the (possibly already mutated)
    object, exactly as a Python caller that catches the exception sees it.

    The development also covers the observation-key filter of
    [surreal/utils/observation.py] and the name and label checks of
    [surreal/kube/kubectl.py]. *)

From stdpp Require Import base list sorting strings gmap.
From Stdlib Require Import ZArith Lia Ascii.

#[local] Open Scope Z_scope.

(** ** Python exceptions and the method monad *)

Inductive exn : Set :=
  | AssertionError
  | IndexError
  | ValueError
  | ZeroDivisionError.

(** A method call either returns a value or raises; in both cases the
    object [self] is left in some state. *)
Inductive outcome (S R : Type) : Type :=
  | Returned (v : R) (self : S)
  | Raised (e : exn) (self : S).
Arguments Returned {S R} v self.
Arguments Raised {S R} e self.

Definition state_after {S R} (o : outcome S R) : S :=
  match o with
  | Returned _ s => s
  | Raised _ s => s
  end.

Definition raises {S R} (o : outcome S R) : bool :=
  match o with
  | Returned _ _ => false
  | Raised _ _ => true
  end.

Definition method (S R : Type) : Type := S -> outcome S R.

Definition ret {S R} (v : R) : method S R := fun s => Returned v s.

Definition raise {S R} (e : exn) : method S R := fun s => Raised e s.

Definition bind {S R T} (m : method S R) (k : R -> method S T) : method S T :=
  fun s =>
    match m s with
    | Returned v s' => k v s'
    | Raised e s' => Raised e s'
    end.

Definition attr {S R} (proj : S -> R) : method S R := fun s => Returned (proj s) s.

Definition assign {S} (upd : S -> S) : method S unit := fun s => Returned tt (upd s).

(** A partial Python primitive: [None] stands for the exception [e]. *)
Definition expect {S R} (e : exn) (o : option R) : method S R :=
  match o with
  | Some v => ret v
  | None => raise e
  end.

Definition py_assert {S} (b : bool) : method S unit :=
  if b then ret tt else raise AssertionError.

Declare Scope py_scope.
Delimit Scope py_scope with py.
Notation "x <- m ;; k" := (bind m (fun x => k))
  (at level 100, m at next level, right associativity) : py_scope.
Notation "m ;; k" := (bind m (fun _ => k))
  (at level 100, k at level 200, right associativity) : py_scope.

(** ** Python list primitives *)

Module Py.
Section ListOps.
Context {A : Type}.

Definition len (l : list A) : Z := Z.of_nat (length l).

(** Index normalisation of [l[i]]: a negative index counts from the end. *)
Definition index (n i : Z) : option nat :=
  let j := if i <? 0 then i + n else i in
  if (j <? 0) || (n <=? j) then None else Some (Z.to_nat j).

Definition getitem (l : list A) (i : Z) : option A :=
  j ← index (len l) i; l !! j.

Definition setitem (l : list A) (i : Z) (x : A) : option (list A) :=
  j ← index (len l) i; Some (<[j:=x]> l).

(** Bound normalisation of a slice with step 1 ([slice.indices]): an absent
    bound is the respective end, a negative one counts from the end, and
    all bounds are clamped to [0, len]. *)
Definition clamp (n : Z) (dflt : Z) (b : option Z) : nat :=
  match b with
  | None => Z.to_nat dflt
  | Some i => Z.to_nat (if i <? 0 then Z.max (i + n) 0 else Z.min i n)
  end.

Definition slice (l : list A) (start stop : option Z) : list A :=
  let a := clamp (len l) 0 start in
  let b := clamp (len l) (len l) stop in
  take (b - a) (drop a l).

Definition del_slice (l : list A) (start stop : option Z) : list A :=
  let a := clamp (len l) 0 start in
  let b := clamp (len l) (len l) stop in
  take a l ++ drop (a `max` b) l.

(** [random.randint(a, b)]: fails on an empty range, otherwise the raw
    entropy [x] selects one of the [b - a + 1] values. *)
Definition randint (a b : Z) (x : Z) : option Z :=
  if b <? a then None else Some (a + x mod (b - a + 1)).

(** [range(n)] as the list of its values. *)
Definition range (n : Z) : list nat := seq 0 (Z.to_nat n).
End ListOps.
End Py.

(** ** The store *)

Section Replay.
Context {A : Type}.

Record UniformReplay : Type := mkReplay {
  _memory : list A;
  _maxsize : Z;
  _sampling_start_size : Z;
  _next_idx : Z
}.

Definition set_memory (m : list A) (self : UniformReplay) : UniformReplay :=
  mkReplay m (_maxsize self) (_sampling_start_size self) (_next_idx self).

Definition set_next_idx (i : Z) (self : UniformReplay) : UniformReplay :=
  mkReplay (_memory self) (_maxsize self) (_sampling_start_size self) i.

Definition M (R : Type) : Type := method UniformReplay R.

(** [UniformReplay.__init__] *)
Definition __init__ (memory_size sampling_start_size : Z) : UniformReplay :=
  mkReplay [] memory_size sampling_start_size 0.

(** [x % self._maxsize] *)
Definition py_mod (x m : Z) : M Z :=
  if m =? 0 then raise ZeroDivisionError else ret (x mod m).

(** [UniformReplay._insert] *)
Definition _insert (exp_dict : A) : M (list A) :=
  (memory <- attr _memory ;;
   next_idx <- attr _next_idx ;;
   evicted <-
     (if Py.len memory <=? next_idx then
        assign (set_memory (memory ++ [exp_dict])) ;;
        ret []
      else
        old <- expect IndexError (Py.getitem memory next_idx) ;;
        memory' <- expect IndexError (Py.setitem memory next_idx exp_dict) ;;
        assign (set_memory memory') ;;
        ret [old]) ;;
   maxsize <- attr _maxsize ;;
   next_idx' <- py_mod (next_idx + 1) maxsize ;;
   assign (set_next_idx next_idx') ;;
   ret evicted)%py.

(** [UniformReplay._sample]; [rnd j] is the entropy of the [j]-th draw and
    the argument [batch_i] of the source is unused. *)
Definition _sample (batch_size : Z) (rnd : nat -> Z) : M (list A) :=
  (memory <- attr _memory ;;
   indices <- expect ValueError
     (mapM (fun j => Py.randint 0 (Py.len memory - 1) (rnd j))
           (Py.range batch_size)) ;;
   expect IndexError (mapM (Py.getitem memory) indices))%py.

(** [UniformReplay._evict] *)
Definition _evict (evict_size : Z) : M (list A) :=
  (memory <- attr _memory ;;
   if Py.len memory <? evict_size then
     assign (set_memory []) ;;
     assign (set_next_idx 0) ;;
     ret memory
   else
     next_idx <- attr _next_idx ;;
     let forward_space := Py.len memory - next_idx in
     evicted <-
       (if evict_size <? forward_space then
          let evicted :=
            Py.slice memory (Some next_idx) (Some (next_idx + evict_size)) in
          assign (set_memory
            (Py.del_slice memory (Some next_idx) (Some (next_idx + evict_size)))) ;;
          ret evicted
        else
          let evicted := Py.slice memory (Some next_idx) None in
          let evict_from_left := evict_size - forward_space in
          let evicted := evicted ++ Py.slice memory None (Some evict_from_left) in
          assign (set_memory (Py.del_slice memory (Some next_idx) None)) ;;
          memory1 <- attr _memory ;;
          assign (set_memory (Py.del_slice memory1 None (Some evict_from_left))) ;;
          assign (set_next_idx (next_idx - evict_from_left)) ;;
          ret evicted) ;;
     py_assert (Py.len evicted =? evict_size) ;;
     ret evicted)%py.

(** [UniformReplay.start_sample_condition] and [UniformReplay.__len__] *)
Definition __len__ (self : UniformReplay) : Z := Py.len (_memory self).

Definition start_sample_condition (self : UniformReplay) : bool :=
  _sampling_start_size self <? __len__ self.

End Replay.
Arguments UniformReplay A : clear implicits.

(** ** Histories of calls and reachable states *)

Section Reachability.
Context {A : Type}.

Inductive call : Type :=
  | Insert (exp_dict : A)
  | Sample (batch_size : Z) (rnd : nat -> Z)
  | Evict (evict_size : Z).

Definition run_call (c : call) : M (A := A) (list A) :=
  match c with
  | Insert exp_dict => _insert exp_dict
  | Sample batch_size rnd => _sample batch_size rnd
  | Evict evict_size => _evict evict_size
  end.

(** The contract of the callers: [evict] is asked for a non-negative
    number of records; [insert] and [sample] take anything. *)
Definition admissible (c : call) : Prop :=
  match c with
  | Evict evict_size => 0 <= evict_size
  | _ => True
  end.

(** States of a store built with a positive capacity after any sequence
    of admissible calls (whatever each call returned or raised). *)
Inductive reachable : UniformReplay A -> Prop :=
  | reachable_init memory_size sampling_start_size :
      0 < memory_size ->
      reachable (__init__ memory_size sampling_start_size)
  | reachable_call self c :
      reachable self -> admissible c ->
      reachable (state_after (run_call c self)).

(** Replaying a whole history from a fresh store. *)
Definition replay (memory_size sampling_start_size : Z) (h : list call)
  : UniformReplay A :=
  foldl (fun self c => state_after (run_call c self))
        (__init__ memory_size sampling_start_size) h.

(** The structural invariant of the cursor. *)
Definition wf (self : UniformReplay A) : Prop :=
  0 <= _next_idx self <= Py.len (_memory self) /\
  Py.len (_memory self) <= _maxsize self /\
  _next_idx self < _maxsize self.

(** The cursor of a store with room stands at the end of its slots. *)
Definition appending (self : UniformReplay A) : Prop :=
  Py.len (_memory self) < _maxsize self ->
  _next_idx self = Py.len (_memory self).

(** The stored records from the least to the most recently inserted:
    the span from the cursor to the end, then the span before it. *)
Definition fifo (self : UniformReplay A) : list A :=
  let c := Z.to_nat (_next_idx self) in
  drop c (_memory self) ++ take c (_memory self).

End Reachability.

(** The index of the [j]-th draw of [_sample] on a store of [n] records. *)
Definition drawn (n : Z) (rnd : nat -> Z) (j : nat) : nat :=
  Z.to_nat (rnd j mod n).

(** ** Relabelling the records of a store *)

Section Relabel.
Context {A B : Type} (f : A -> B).

Definition map_store (self : UniformReplay A) : UniformReplay B :=
  mkReplay (f <$> _memory self) (_maxsize self) (_sampling_start_size self)
           (_next_idx self).

Definition map_outcome (o : outcome (UniformReplay A) (list A))
  : outcome (UniformReplay B) (list B) :=
  match o with
  | Returned v s => Returned (f <$> v) (map_store s)
  | Raised e s => Raised e (map_store s)
  end.

Definition map_call (c : call (A := A)) : call (A := B) :=
  match c with
  | Insert x => Insert (f x)
  | Sample k rnd => Sample k rnd
  | Evict n => Evict n
  end.
End Relabel.

(** ** Insertion stamps

    To speak about the age of a record, the [t]-th call of [insert] stores
    its record together with the serial number [t].  The stamp is ghost
    data: by naturality the stamped store behaves as the plain one. *)

Section Stamps.
Context {A : Type}.

Inductive reachable_at : nat -> UniformReplay (nat * A) -> Prop :=
  | at_init memory_size sampling_start_size :
      0 < memory_size ->
      reachable_at 0 (__init__ memory_size sampling_start_size)
  | at_insert t self x :
      reachable_at t self ->
      reachable_at (S t) (state_after (_insert (t, x) self))
  | at_sample t self batch_size rnd :
      reachable_at t self ->
      reachable_at t (state_after (_sample batch_size rnd self))
  | at_evict t self evict_size :
      reachable_at t self -> 0 <= evict_size ->
      reachable_at t (state_after (_evict evict_size self)).

Definition erase : UniformReplay (nat * A) -> UniformReplay A := map_store snd.

(** Along the oldest-first order the stamps increase, and all of them
    were handed out already. *)
Definition increasing (t : nat) (l : list (nat * A)) : Prop :=
  StronglySorted lt (fst <$> l) /\ Forall (fun s => s < t)%nat (fst <$> l).

Definition aged (t : nat) (self : UniformReplay (nat * A)) : Prop :=
  increasing t (fifo self).

End Stamps.

(** ** Example stores *)

(** Capacity 3 after the inserts 1, 2, 3, 4: the slots are [4; 2; 3] and the
    cursor is 1, so the oldest-first order is 2, 3, 4. *)
Definition wrapped_store : UniformReplay nat :=
  replay 3 0 [Insert 1%nat; Insert 2%nat; Insert 3%nat; Insert 4%nat].

(** The same store after [evict(1)]: the slots are [4; 3], the cursor is
    still 1 and the store has room for one more record. *)
Definition shrunk_store : UniformReplay nat :=
  replay 3 0 [Insert 1%nat; Insert 2%nat; Insert 3%nat; Insert 4%nat; Evict 1].

(** Capacity 3 after the inserts 1, 2: still filling. *)
Definition filling_store : UniformReplay nat :=
  replay 3 0 [Insert 1%nat; Insert 2%nat].

(** Capacity 2 after the inserts 1, 2: full, with the cursor back at 0. *)
Definition full_store : UniformReplay nat :=
  replay 2 0 [Insert 1%nat; Insert 2%nat].

(** The stamped counterpart of [wrapped_store]. *)
Definition stamped_store : UniformReplay (nat * nat) :=
  let s0 := __init__ 3 0 in
  let s1 := state_after (_insert (0%nat, 1%nat) s0) in
  let s2 := state_after (_insert (1%nat, 2%nat) s1) in
  let s3 := state_after (_insert (2%nat, 3%nat) s2) in
  state_after (_insert (3%nat, 4%nat) s3).

(** ** Histories with what they hand back *)

Section Ledger.
Context {A : Type}.

(** The records a call hands over to its caller: what [_insert] displaced
    and what [_evict] removed.  [_sample] hands out records that stay
    stored, and a call that raises hands over nothing. *)
Definition handed_back (c : call (A := A))
    (o : outcome (UniformReplay A) (list A)) : list A :=
  match c, o with
  | Sample _ _, _ => []
  | _, Returned evicted _ => evicted
  | _, Raised _ _ => []
  end.

(** The records a history passes to [_insert], in call order. *)
Definition inserted (h : list (call (A := A))) : list A :=
  omap (fun c => match c with Insert exp_dict => Some exp_dict | _ => None end) h.

(** Replaying a history while collecting everything handed back. *)
Definition replay_log (memory_size sampling_start_size : Z)
    (h : list (call (A := A))) : UniformReplay A * list A :=
  foldl (fun acc c =>
           let o := run_call c acc.1 in
           (state_after o, acc.2 ++ handed_back c o))
        (__init__ memory_size sampling_start_size, []) h.

End Ledger.

(** ** Observation keys: [surreal/utils/observation.py] *)

Inductive key_error : Type :=
  | KeyError (key : string).

(** [learner_config.model.input]: a dictionary from a modality to the
    observation keys that belong to it. *)
Record model_config : Type := mkModel {
  input : gmap string (list string)
}.

Record learner_config_t : Type := mkLearner {
  model : model_config
}.

(** [get_matching_keys_for_modality]; [obs] is an [OrderedDict], modelled as
    the list of its items in iteration order. *)
Definition get_matching_keys_for_modality {V} (obs : list (string * V))
    (modality : string) (learner_config : learner_config_t)
    : key_error + list string :=
  match input (model learner_config) !! modality with
  | None => inl (KeyError modality)
  | Some valid_keys =>
      inr (foldl (fun matching_keys key =>
                    if bool_decide (key ∈ valid_keys)
                    then matching_keys ++ [key]
                    else matching_keys)
                 [] (obs.*1))
  end.

(** ** Regular expressions, as far as [surreal/kube/kubectl.py] needs them *)

Module Re.

Inductive regex : Type :=
  | Never
  | Eps
  | Class (p : ascii -> bool)
  | Cat (r1 r2 : regex)
  | Alt (r1 r2 : regex)
  | Star (r : regex).

(** [r?] *)
Definition Opt (r : regex) : regex := Alt r Eps.

(** The strings of a regular expression. *)
Inductive matches : regex -> list ascii -> Prop :=
  | matches_eps : matches Eps []
  | matches_class p c : p c = true -> matches (Class p) [c]
  | matches_cat r1 r2 s1 s2 :
      matches r1 s1 -> matches r2 s2 -> matches (Cat r1 r2) (s1 ++ s2)
  | matches_alt_l r1 r2 s : matches r1 s -> matches (Alt r1 r2) s
  | matches_alt_r r1 r2 s : matches r2 s -> matches (Alt r1 r2) s
  | matches_star_nil r : matches (Star r) []
  | matches_star_app r s1 s2 :
      matches r s1 -> matches (Star r) s2 -> matches (Star r) (s1 ++ s2).

(** Matching by derivatives. *)
Fixpoint nullable (r : regex) : bool :=
  match r with
  | Never => false
  | Eps => true
  | Class _ => false
  | Cat r1 r2 => nullable r1 && nullable r2
  | Alt r1 r2 => nullable r1 || nullable r2
  | Star _ => true
  end.

Fixpoint deriv (c : ascii) (r : regex) : regex :=
  match r with
  | Never => Never
  | Eps => Never
  | Class p => if p c then Eps else Never
  | Cat r1 r2 =>
      if nullable r1
      then Alt (Cat (deriv c r1) r2) (deriv c r2)
      else Cat (deriv c r1) r2
  | Alt r1 r2 => Alt (deriv c r1) (deriv c r2)
  | Star r => Cat (deriv c r) (Star r)
  end.

Fixpoint fullmatch (r : regex) (s : list ascii) : bool :=
  match s with
  | [] => nullable r
  | c :: s' => fullmatch (deriv c r) s'
  end.

(** The character range [lo-hi] of a bracket expression. *)
Definition in_range (lo hi c : ascii) : bool :=
  (nat_of_ascii lo <=? nat_of_ascii c)%nat && (nat_of_ascii c <=? nat_of_ascii hi)%nat.

Definition newline : ascii := ascii_of_nat 10.

(** [re.match] with a pattern [^r$]: the match starts at the first
    character, and [$] holds at the end of the string and also just before
    a newline that is the last character of the string. *)
Definition match_to_dollar (r : regex) (s : string) : bool :=
  fullmatch (Cat r (Opt (Class (Ascii.eqb newline))))
            (String.list_ascii_of_string s).

End Re.

(** ** Helpers of [surreal/kube/kubectl.py] *)

(** A pure function either returns or raises an exception with a message. *)
Inductive result (R : Type) : Type :=
  | Ok (v : R)
  | Error (e : exn) (msg : string).
Arguments Ok {R} v.
Arguments Error {R} e msg.

(** [a-z0-9] and [-a-z0-9] *)
Definition lower_or_digit (c : ascii) : bool :=
  Re.in_range "a" "z" c || Re.in_range "0" "9" c.

Definition lower_digit_or_hyphen (c : ascii) : bool :=
  Ascii.eqb c "-" || Re.in_range "a" "z" c || Re.in_range "0" "9" c.

(** [_DNS_RE], the pattern [^[a-z0-9]([-a-z0-9]*[a-z0-9])?$] *)
Definition _DNS_RE : Re.regex :=
  Re.Cat (Re.Class lower_or_digit)
         (Re.Opt (Re.Cat (Re.Star (Re.Class lower_digit_or_hyphen))
                         (Re.Class lower_or_digit))).

(** [check_valid_dns] *)
Definition check_valid_dns (name : string) : result unit :=
  if negb (Re.match_to_dollar _DNS_RE name) then
    Error ValueError
      (name +:+ " must be a valid DNS name with only lower-case " +:+
       "letters, 0-9 and hyphen. No underscore or dot allowed.")
  else Ok tt.

(** [c in s] for a single character [c] *)
Fixpoint contains (c : ascii) (s : string) : bool :=
  match s with
  | EmptyString => false
  | String c' s' => Ascii.eqb c' c || contains c s'
  end.

(** [s.split(sep, 1)] for a single character [sep] *)
Fixpoint split1 (sep : ascii) (s : string) : list string :=
  match s with
  | EmptyString => [EmptyString]
  | String c s' =>
      if Ascii.eqb c sep then [EmptyString; s']
      else match split1 sep s' with
           | first :: rest => String c first :: rest
           | [] => []
           end
  end.

(** ['{}: {}'.format( *label_spec )] *)
Definition format_label (label_spec : list string) : result string :=
  match label_spec with
  | name :: value :: _ => Ok (name +:+ ": " +:+ value)
  | _ => Error IndexError "Replacement index 1 out of range for positional args tuple"
  end.

(** [Kubectl._yamlify_label_string] *)
Definition _yamlify_label_string (label_string : string) : result string :=
  match label_string with
  | EmptyString => Ok EmptyString
  | _ =>
      if negb (contains ":" label_string || contains "=" label_string) then
        Error AssertionError "label spec should look like <labelname>=<labelvalue>"
      else
        let label_spec :=
          if contains ":" label_string then split1 ":" label_string
          else split1 "=" label_string in
        format_label label_spec
  end.

(** A DNS label: lower-case letters, digits and hyphens, beginning and
    ending with a letter or a digit. *)
Definition dns_label (body : list ascii) : bool :=
  forallb lower_digit_or_hyphen body &&
  from_option lower_or_digit false (head body) &&
  from_option lower_or_digit false (last body).

(** * Proofs *)

(** ** Python slices on in-range bounds *)

Section SliceFacts.
Context {A : Type}.
Implicit Types l : list A.

Lemma len_nonneg l : 0 <= Py.len l.
Proof. unfold Py.len. lia. Qed.

Lemma to_nat_len l : Z.to_nat (Py.len l) = length l.
Proof. unfold Py.len. lia. Qed.

Lemma len_app l1 l2 : Py.len (l1 ++ l2) = Py.len l1 + Py.len l2.
Proof. unfold Py.len. rewrite length_app. lia. Qed.

Lemma slice_mid l a b :
  0 <= a <= b -> b <= Py.len l ->
  Py.slice l (Some a) (Some b) = take (Z.to_nat (b - a)) (drop (Z.to_nat a) l).
Proof.
  intros Ha Hb. unfold Py.slice, Py.clamp.
  destruct (Z.ltb_spec a 0), (Z.ltb_spec b 0); try lia.
  rewrite !Z.min_l by lia. f_equal. lia.
Qed.

Lemma del_slice_mid l a b :
  0 <= a <= b -> b <= Py.len l ->
  Py.del_slice l (Some a) (Some b) = take (Z.to_nat a) l ++ drop (Z.to_nat b) l.
Proof.
  intros Ha Hb. unfold Py.del_slice, Py.clamp.
  destruct (Z.ltb_spec a 0), (Z.ltb_spec b 0); try lia.
  rewrite !Z.min_l by lia. do 2 f_equal. lia.
Qed.

Lemma slice_from l a :
  0 <= a <= Py.len l -> Py.slice l (Some a) None = drop (Z.to_nat a) l.
Proof.
  intros Ha. unfold Py.slice, Py.clamp.
  destruct (Z.ltb_spec a 0); try lia.
  rewrite Z.min_l by lia. apply take_ge.
  rewrite length_drop. unfold Py.len. lia.
Qed.

Lemma del_slice_from l a :
  0 <= a <= Py.len l -> Py.del_slice l (Some a) None = take (Z.to_nat a) l.
Proof.
  intros Ha. unfold Py.del_slice, Py.clamp.
  destruct (Z.ltb_spec a 0); try lia.
  rewrite Z.min_l by lia. rewrite drop_ge, app_nil_r; [done|].
  unfold Py.len. lia.
Qed.

Lemma slice_upto l b :
  0 <= b <= Py.len l -> Py.slice l None (Some b) = take (Z.to_nat b) l.
Proof.
  intros Hb. unfold Py.slice, Py.clamp.
  destruct (Z.ltb_spec b 0); try lia.
  rewrite Z.min_l by lia. simpl. f_equal. lia.
Qed.

Lemma del_slice_upto l b :
  0 <= b <= Py.len l -> Py.del_slice l None (Some b) = drop (Z.to_nat b) l.
Proof.
  intros Hb. unfold Py.del_slice, Py.clamp.
  destruct (Z.ltb_spec b 0); try lia.
  rewrite Z.min_l by lia. simpl. f_equal.
Qed.

Lemma getitem_in_range l i :
  0 <= i < Py.len l -> Py.getitem l i = l !! Z.to_nat i.
Proof.
  intros Hi. unfold Py.getitem, Py.index.
  destruct (Z.ltb_spec i 0); try lia.
  destruct (Z.ltb_spec i 0), (Z.leb_spec (Py.len l) i); try lia. done.
Qed.

Lemma setitem_in_range l i x :
  0 <= i < Py.len l -> Py.setitem l i x = Some (<[Z.to_nat i := x]> l).
Proof.
  intros Hi. unfold Py.setitem, Py.index.
  destruct (Z.ltb_spec i 0); try lia.
  destruct (Z.ltb_spec i 0), (Z.leb_spec (Py.len l) i); try lia. done.
Qed.
End SliceFacts.

(** ** What each method does on a well-formed store *)

Section MethodFacts.
Context {A : Type}.
Implicit Types (self : UniformReplay A) (x : A).

Ltac run_method :=
  unfold _insert, _evict, _sample, py_mod, bind, attr, assign, py_assert, expect,
    ret, raise, set_memory, set_next_idx; simpl.

Lemma insert_append self x :
  Py.len (_memory self) <= _next_idx self -> _maxsize self <> 0 ->
  _insert x self =
    Returned [] (mkReplay (_memory self ++ [x]) (_maxsize self)
                   (_sampling_start_size self)
                   ((_next_idx self + 1) mod _maxsize self)).
Proof.
  intros Hidx Hcap. run_method.
  destruct (Z.leb_spec (Py.len (_memory self)) (_next_idx self)); [|lia].
  simpl. destruct (Z.eqb_spec (_maxsize self) 0); done.
Qed.

Lemma insert_overwrite self x :
  0 <= _next_idx self < Py.len (_memory self) -> _maxsize self <> 0 ->
  exists old,
    _memory self !! Z.to_nat (_next_idx self) = Some old /\
    _insert x self =
      Returned [old] (mkReplay (<[Z.to_nat (_next_idx self) := x]> (_memory self))
                        (_maxsize self) (_sampling_start_size self)
                        ((_next_idx self + 1) mod _maxsize self)).
Proof.
  intros Hidx Hcap.
  destruct (lookup_lt_is_Some_2 (_memory self) (Z.to_nat (_next_idx self)))
    as [old Hold]; [unfold Py.len in Hidx; lia|].
  exists old. split; [done|]. run_method.
  destruct (Z.leb_spec (Py.len (_memory self)) (_next_idx self)); [lia|].
  rewrite getitem_in_range, setitem_in_range, Hold by done. simpl.
  destruct (Z.eqb_spec (_maxsize self) 0); done.
Qed.

Lemma insert_zero_capacity self x :
  _maxsize self = 0 -> Py.len (_memory self) <= _next_idx self ->
  _insert x self = Raised ZeroDivisionError (set_memory (_memory self ++ [x]) self).
Proof.
  intros Hcap Hidx. run_method.
  destruct (Z.leb_spec (Py.len (_memory self)) (_next_idx self)); [|lia].
  simpl. rewrite Hcap. done.
Qed.

Lemma evict_all self n :
  Py.len (_memory self) < n ->
  _evict n self =
    Returned (_memory self)
      (mkReplay [] (_maxsize self) (_sampling_start_size self) 0).
Proof.
  intros Hn. run_method.
  destruct (Z.ltb_spec (Py.len (_memory self)) n); [done|lia].
Qed.

Lemma evict_forward self n :
  0 <= _next_idx self -> 0 <= n < Py.len (_memory self) - _next_idx self ->
  _evict n self =
    Returned (take (Z.to_nat n) (drop (Z.to_nat (_next_idx self)) (_memory self)))
      (mkReplay (take (Z.to_nat (_next_idx self)) (_memory self) ++
                 drop (Z.to_nat (_next_idx self) + Z.to_nat n) (_memory self))
         (_maxsize self) (_sampling_start_size self) (_next_idx self)).
Proof.
  intros Hidx Hn. run_method.
  destruct (Z.ltb_spec (Py.len (_memory self)) n); [lia|].
  destruct (Z.ltb_spec n (Py.len (_memory self) - _next_idx self)); [|lia].
  simpl. rewrite slice_mid, del_slice_mid by lia.
  replace (_next_idx self + n - _next_idx self) with n by lia.
  replace (Z.to_nat (_next_idx self + n))
    with (Z.to_nat (_next_idx self) + Z.to_nat n)%nat by lia.
  assert (Hlen : Py.len (take (Z.to_nat n)
            (drop (Z.to_nat (_next_idx self)) (_memory self))) = n).
  { unfold Py.len in *. rewrite length_take, length_drop. lia. }
  rewrite Hlen, Z.eqb_refl. done.
Qed.

Lemma evict_wrap self n :
  0 <= _next_idx self <= Py.len (_memory self) ->
  Py.len (_memory self) - _next_idx self <= n <= Py.len (_memory self) ->
  let e := Z.to_nat (n - (Py.len (_memory self) - _next_idx self)) in
  _evict n self =
    Returned (drop (Z.to_nat (_next_idx self)) (_memory self) ++ take e (_memory self))
      (mkReplay (drop e (take (Z.to_nat (_next_idx self)) (_memory self)))
         (_maxsize self) (_sampling_start_size self)
         (_next_idx self - (n - (Py.len (_memory self) - _next_idx self)))).
Proof.
  intros Hidx Hn e. run_method.
  destruct (Z.ltb_spec (Py.len (_memory self)) n); [lia|].
  destruct (Z.ltb_spec n (Py.len (_memory self) - _next_idx self)); [lia|].
  simpl. rewrite slice_from, slice_upto, del_slice_from by lia.
  rewrite del_slice_upto.
  2:{ unfold Py.len in *. rewrite length_take. lia. }
  fold e.
  assert (Hlen : Py.len (drop (Z.to_nat (_next_idx self)) (_memory self) ++
                         take e (_memory self)) = n).
  { unfold Py.len in *. rewrite length_app, length_take, length_drop. lia. }
  rewrite Hlen, Z.eqb_refl. done.
Qed.

(** Sampling *)

Lemma mapM_total {B C} (f : B -> option C) (g : B -> C) (l : list B) :
  (forall b, f b = Some (g b)) -> mapM f l = Some (g <$> l).
Proof.
  intros Hf. induction l as [|b l IH]; [done|].
  simpl. rewrite Hf, IH. done.
Qed.

Lemma sample_state self k rnd : state_after (_sample k rnd self) = self.
Proof.
  run_method.
  destruct (mapM _ (Py.range k)) as [indices|]; [|done]. simpl.
  destruct (mapM _ indices); done.
Qed.

Lemma sample_nonpositive self k rnd :
  k <= 0 -> _sample k rnd self = Returned [] self.
Proof.
  intros Hk. run_method. unfold Py.range.
  replace (Z.to_nat k) with 0%nat by lia. done.
Qed.

Lemma sample_empty self k rnd :
  Py.len (_memory self) = 0 -> 0 < k ->
  _sample k rnd self = Raised ValueError self.
Proof.
  intros Hlen Hk. run_method. unfold Py.range.
  destruct (Z.to_nat k) as [|k'] eqn:Ek; [lia|].
  simpl. unfold Py.randint. rewrite Hlen. done.
Qed.

Lemma mapM_getitem (l : list A) (indices : list Z) :
  Forall (fun i => 0 <= i < Py.len l) indices ->
  exists recs,
    mapM (Py.getitem l) indices = Some recs /\
    Forall2 (fun i r => l !! Z.to_nat i = Some r) indices recs.
Proof.
  induction 1 as [|i indices Hi _ (recs & Hrun & Hrecs)].
  - exists []. split; [done|constructor].
  - destruct (lookup_lt_is_Some_2 l (Z.to_nat i)) as [r Hr].
    { unfold Py.len in Hi. lia. }
    exists (r :: recs). split; [|by constructor].
    simpl. rewrite getitem_in_range, Hr, Hrun by done. done.
Qed.

Lemma sample_nonempty self k rnd :
  1 <= Py.len (_memory self) ->
  exists recs,
    _sample k rnd self = Returned recs self /\
    Forall2 (fun j r => _memory self !! drawn (Py.len (_memory self)) rnd j = Some r)
            (Py.range k) recs.
Proof.
  intros Hlen. run_method.
  set (n := Py.len (_memory self)) in *.
  rewrite (mapM_total _ (fun j => rnd j mod n)).
  2:{ intros j. unfold Py.randint.
      destruct (Z.ltb_spec (n - 1) 0); [lia|].
      replace (n - 1 - 0 + 1) with n by lia. by rewrite Z.add_0_l. }
  destruct (mapM_getitem (_memory self) ((fun j => rnd j mod n) <$> Py.range k))
    as (recs & Hrun & Hrecs).
  { apply Forall_fmap, Forall_forall. intros j _. simpl.
    apply Z.mod_pos_bound. lia. }
  exists recs. rewrite Hrun. split; [done|].
  by apply Forall2_fmap_l in Hrecs.
Qed.
End MethodFacts.

(** ** The cursor invariant and the oldest-first order *)

Section Invariant.
Context {A : Type}.
Implicit Types (self : UniformReplay A) (x : A).

Lemma init_wf memory_size sampling_start_size :
  0 < memory_size -> wf (A := A) (__init__ memory_size sampling_start_size).
Proof. unfold wf, __init__, Py.len. simpl. lia. Qed.

Lemma fifo_length self :
  0 <= _next_idx self <= Py.len (_memory self) ->
  length (fifo self) = length (_memory self).
Proof.
  intros Hidx. unfold fifo, Py.len in *.
  rewrite length_app, length_take, length_drop. lia.
Qed.

Lemma fifo_perm self : fifo self ≡ₚ _memory self.
Proof.
  unfold fifo. rewrite (comm (++)). by rewrite take_drop.
Qed.

(** One insertion: whatever is displaced is the head of the oldest-first
    order, and the new record becomes its last element. *)
Lemma insert_fifo self x :
  wf self ->
  exists ev self',
    _insert x self = Returned ev self' /\
    wf self' /\
    _maxsize self' = _maxsize self /\
    ev ++ fifo self' = fifo self ++ [x] /\
    (ev = [] <-> _next_idx self = Py.len (_memory self)) /\
    Py.len ev + Py.len (_memory self') = Py.len (_memory self) + 1 /\
    (length ev <= 1)%nat.
Proof.
  destruct self as [mem cap sss idx]. unfold wf, fifo. simpl.
  intros (Hidx & Hcap & Hlt).
  destruct (decide (idx = Py.len mem)) as [->|Hne].
  - rewrite insert_append by (simpl; lia). simpl.
    eexists _, _. split; [reflexivity|]. simpl.
    rewrite len_app. change (Py.len [x]) with 1. change (Py.len []) with 0.
    destruct (decide (Py.len mem + 1 = cap)) as [<-|Hfull].
    + rewrite Z_mod_same_full. simpl.
      rewrite to_nat_len, drop_all, (take_ge mem (length mem)) by lia.
      simpl. rewrite app_nil_r. repeat split; auto; lia.
    + rewrite Z.mod_small by lia.
      replace (Z.to_nat (Py.len mem + 1)) with (length (mem ++ [x]))
        by (rewrite length_app; unfold Py.len; simpl; lia).
      rewrite to_nat_len, !drop_all, !take_ge by lia. simpl.
      repeat split; auto; lia.
  - destruct (insert_overwrite (mkReplay mem cap sss idx) x)
      as (old & Hold & ->); simpl; [lia..|].
    simpl in Hold. set (c := Z.to_nat idx) in *.
    eexists _, _. split; [reflexivity|]. simpl.
    assert (Hc : (c < length mem)%nat) by (unfold c, Py.len in *; lia).
    unfold Py.len. rewrite length_insert. fold (Py.len mem). simpl.
    assert (Hfifo : drop c mem ++ take c mem = old :: drop (S c) mem ++ take c mem).
    { rewrite <- (take_drop_middle mem c old) at 1 by done.
      rewrite drop_app_length' by (rewrite length_take; lia). done. }
    rewrite Hfifo.
    destruct (decide (idx + 1 = cap)) as [<-|Hfull].
    + rewrite Z_mod_same_full. simpl.
      assert (length mem = S c) by (unfold c, Py.len in *; lia).
      change (Z.to_nat 0) with 0%nat. rewrite drop_0, take_0, app_nil_r.
      rewrite insert_take_drop, !(drop_ge mem (S c)) by lia.
      simpl. repeat split; auto; try lia; try done.
    + rewrite Z.mod_small by lia.
      replace (Z.to_nat (idx + 1)) with (S c) by lia.
      rewrite drop_insert_lt by lia.
      rewrite (take_S_r _ c x) by (by apply list_lookup_insert_eq).
      rewrite take_insert_ge by lia.
      repeat split; auto; try lia; try done.
      simpl. by rewrite <- app_assoc.
Qed.

(** Bulk eviction of at most the stored number of records removes a
    prefix of the oldest-first order and returns it. *)
Lemma evict_fifo self n :
  wf self -> 0 <= n <= Py.len (_memory self) ->
  exists ev self',
    _evict n self = Returned ev self' /\
    wf self' /\
    _maxsize self' = _maxsize self /\
    ev ++ fifo self' = fifo self /\
    Py.len ev = n /\
    Py.len (_memory self') = Py.len (_memory self) - n.
Proof.
  destruct self as [mem cap sss idx]. unfold wf, fifo. simpl.
  intros (Hidx & Hcap & Hlt) Hn.
  set (c := Z.to_nat idx). set (k := Z.to_nat n).
  assert (Hmem : Z.of_nat (length mem) = Py.len mem) by done.
  destruct (decide (n < Py.len mem - idx)) as [Hfwd|Hwrap].
  - rewrite evict_forward by (simpl; lia). simpl. fold c k.
    eexists _, _. split; [reflexivity|]. simpl.
    assert (Hc : length (take c mem) = c) by (rewrite length_take; lia).
    rewrite drop_app_length', take_app_length' by done.
    rewrite <- drop_drop, (assoc (++)), take_drop.
    unfold Py.len.
    rewrite length_app, !length_take, !length_drop.
    repeat split; auto; lia.
  - rewrite evict_wrap by (simpl; lia). simpl. fold c.
    set (e := Z.to_nat (n - (Py.len mem - idx))).
    eexists _, _. split; [reflexivity|]. simpl.
    assert (He : (e <= c)%nat) by lia.
    assert (Hlen' : length (drop e (take c mem)) = (c - e)%nat)
      by (rewrite length_drop, length_take; lia).
    replace (Z.to_nat (idx - (n - (Py.len mem - idx)))) with (c - e)%nat by lia.
    rewrite (drop_ge (drop e (take c mem)) (c - e)),
      (take_ge (drop e (take c mem)) (c - e)) by lia. simpl.
    replace (take e mem) with (take e (take c mem))
      by (rewrite take_take; f_equal; lia).
    rewrite <- (assoc (++)), take_drop.
    unfold Py.len.
    rewrite length_app, !length_drop, !length_take.
    repeat split; auto; lia.
Qed.

(** Eviction with any non-negative count: the count is clamped to the
    number of stored records and the call returns. *)
Lemma evict_clamped self n :
  wf self -> 0 <= n ->
  exists ev self',
    _evict n self = Returned ev self' /\
    wf self' /\
    _maxsize self' = _maxsize self /\
    ev ++ fifo self' ≡ₚ fifo self /\
    fifo self' `suffix_of` fifo self /\
    Py.len ev = Z.min n (Py.len (_memory self)) /\
    Py.len (_memory self') = Py.len (_memory self) - Py.len ev.
Proof.
  intros Hwf Hn.
  destruct (decide (n <= Py.len (_memory self))) as [Hle|Hgt].
  - destruct (evict_fifo self n) as (ev & self' & -> & ? & ? & Hfifo & ? & ?);
      [done|lia|].
    exists ev, self'. rewrite <- Hfifo. split_and!; try done; try lia.
    by exists ev.
  - rewrite evict_all by lia.
    eexists _, _. split; [reflexivity|]. destruct Hwf as (? & ? & ?).
    change (Py.len (@nil A)) with 0.
    split_and!; try done; try lia.
    + unfold wf. simpl. change (Py.len (@nil A)) with 0. lia.
    + unfold fifo at 1. simpl. by rewrite app_nil_r, fifo_perm.
    + apply suffix_nil.
    + simpl. change (Py.len (@nil A)) with 0. lia.
Qed.

Lemma call_wf self (c : call) :
  wf self -> admissible c -> wf (state_after (run_call c self)).
Proof.
  intros Hwf Hc. destruct c as [x|k rnd|n]; simpl in *.
  - by destruct (insert_fifo self x) as (ev & self' & -> & ? & _).
  - by rewrite sample_state.
  - by destruct (evict_clamped self n) as (ev & self' & -> & ? & _).
Qed.

Lemma reachable_wf self : reachable self -> wf self.
Proof.
  induction 1 as [memory_size sss Hcap|self c _ IH Hc].
  - by apply init_wf.
  - by apply call_wf.
Qed.

Lemma replay_reachable memory_size sampling_start_size (h : list (call (A := A))) :
  0 < memory_size -> Forall admissible h ->
  reachable (replay memory_size sampling_start_size h).
Proof.
  intros Hcap Hh. unfold replay.
  assert (Hinit : reachable (A := A) (__init__ memory_size sampling_start_size))
    by by constructor.
  revert Hinit. generalize (__init__ (A := A) memory_size sampling_start_size).
  induction Hh as [|c h Hc _ IH]; intros self Hself; simpl; [done|].
  apply IH. by constructor.
Qed.
End Invariant.

(** ** The methods never inspect the records

    Relabelling the records of a store commutes with every method: the
    store only moves records around.  This is what allows records to carry
    a ghost insertion stamp below. *)

Section Naturality.
Context {A B : Type} (f : A -> B).

Lemma len_fmap (l : list A) : Py.len (f <$> l) = Py.len l.
Proof. unfold Py.len. by rewrite length_fmap. Qed.

Lemma slice_fmap (l : list A) a b :
  Py.slice (f <$> l) a b = f <$> Py.slice l a b.
Proof. unfold Py.slice. by rewrite len_fmap, fmap_take, fmap_drop. Qed.

Lemma del_slice_fmap (l : list A) a b :
  Py.del_slice (f <$> l) a b = f <$> Py.del_slice l a b.
Proof.
  unfold Py.del_slice. by rewrite len_fmap, fmap_app, fmap_take, fmap_drop.
Qed.

Lemma getitem_fmap (l : list A) i :
  Py.getitem (f <$> l) i = f <$> Py.getitem l i.
Proof.
  unfold Py.getitem. rewrite len_fmap.
  destruct (Py.index (Py.len l) i); simpl; [|done].
  by rewrite list_lookup_fmap.
Qed.

Lemma setitem_fmap (l : list A) i x :
  Py.setitem (f <$> l) i (f x) = fmap (M := list) f <$> Py.setitem l i x.
Proof.
  unfold Py.setitem. rewrite len_fmap.
  destruct (Py.index (Py.len l) i); simpl; [|done].
  by rewrite list_fmap_insert.
Qed.

Lemma mapM_getitem_fmap (l : list A) (indices : list Z) :
  mapM (Py.getitem (f <$> l)) indices =
  fmap (M := list) f <$> mapM (Py.getitem l) indices.
Proof.
  induction indices as [|i indices IH]; [done|].
  simpl. rewrite getitem_fmap, IH.
  destruct (Py.getitem l i); simpl; [|done].
  destruct (mapM (Py.getitem l) indices); done.
Qed.

Ltac run_method :=
  unfold _insert, _evict, _sample, py_mod, bind, attr, assign, py_assert, expect,
    ret, raise, set_memory, set_next_idx, map_store; simpl.

Lemma insert_natural x self :
  _insert (f x) (map_store f self) = map_outcome f (_insert x self).
Proof.
  run_method. rewrite len_fmap.
  destruct (Py.len (_memory self) <=? _next_idx self); simpl.
  - destruct (_maxsize self =? 0); simpl; unfold map_store; simpl;
      by rewrite fmap_app.
  - rewrite getitem_fmap, setitem_fmap.
    destruct (Py.getitem (_memory self) (_next_idx self)); simpl; [|done].
    destruct (Py.setitem (_memory self) (_next_idx self) x); simpl; [|done].
    destruct (_maxsize self =? 0); done.
Qed.

Lemma sample_natural k rnd self :
  _sample k rnd (map_store f self) = map_outcome f (_sample k rnd self).
Proof.
  run_method. rewrite len_fmap.
  destruct (mapM _ (Py.range k)) as [indices|]; simpl; [|done].
  rewrite mapM_getitem_fmap.
  destruct (mapM (Py.getitem (_memory self)) indices); done.
Qed.

Lemma evict_natural n self :
  _evict n (map_store f self) = map_outcome f (_evict n self).
Proof.
  run_method. rewrite len_fmap.
  destruct (Py.len (_memory self) <? n); simpl; [done|].
  destruct (n <? Py.len (_memory self) - _next_idx self); simpl.
  - rewrite slice_fmap, del_slice_fmap, len_fmap.
    destruct (Py.len _ =? n); done.
  - rewrite !slice_fmap, !del_slice_fmap, <- fmap_app, len_fmap.
    destruct (Py.len _ =? n); done.
Qed.

Lemma call_natural c self :
  run_call (map_call f c) (map_store f self) = map_outcome f (run_call c self).
Proof.
  destruct c; simpl;
    auto using insert_natural, sample_natural, evict_natural.
Qed.

Lemma state_after_map o : state_after (map_outcome f o) = map_store f (state_after o).
Proof. by destruct o. Qed.
End Naturality.

(** ** The stamps order the records by age *)

Section Ages.
Context {A : Type}.
Implicit Types (self : UniformReplay (nat * A)).

Lemma reachable_at_reachable t self : reachable_at t self -> reachable self.
Proof.
  induction 1 as [| t self x _ IH | t self k rnd _ IH | t self n _ IH Hn].
  - by constructor.
  - by apply (reachable_call self (Insert (t, x))).
  - by apply (reachable_call self (Sample k rnd)).
  - by apply (reachable_call self (Evict n)).
Qed.

Lemma erase_reachable t self : reachable_at t self -> reachable (erase self).
Proof.
  unfold erase.
  induction 1 as [| t self x _ IH | t self k rnd _ IH | t self n _ IH Hn].
  - by constructor.
  - rewrite <- state_after_map, <- insert_natural.
    by apply (reachable_call _ (Insert x)).
  - rewrite <- state_after_map, <- sample_natural.
    by apply (reachable_call _ (Sample k rnd)).
  - rewrite <- state_after_map, <- evict_natural.
    by apply (reachable_call _ (Evict n)).
Qed.

Lemma stamp_reachable (self : UniformReplay A) :
  reachable self -> exists t self', reachable_at t self' /\ erase self' = self.
Proof.
  unfold erase.
  induction 1 as [memory_size sss Hcap|self c _ (t & self' & Hat & <-) Hc].
  - exists 0%nat, (__init__ memory_size sss). split; [by constructor|done].
  - destruct c as [x|k rnd|n]; simpl in *.
    + exists (S t), (state_after (_insert (t, x) self')).
      split; [by constructor|].
      by rewrite <- state_after_map, <- insert_natural.
    + exists t, (state_after (_sample k rnd self')).
      split; [by constructor|].
      by rewrite <- state_after_map, <- sample_natural.
    + exists t, (state_after (_evict n self')).
      split; [by constructor|].
      by rewrite <- state_after_map, <- evict_natural.
Qed.

Lemma increasing_suffix t (l l' : list (nat * A)) :
  l' `suffix_of` l -> increasing t l -> increasing t l'.
Proof.
  intros [pre ->] [Hsorted Hlt]. rewrite fmap_app in Hsorted, Hlt. split.
  - by apply StronglySorted_app_1_r in Hsorted.
  - by apply Forall_app in Hlt as [_ ?].
Qed.

Lemma increasing_snoc t (l : list (nat * A)) x :
  increasing t l -> increasing (S t) (l ++ [(t, x)]).
Proof.
  intros [Hsorted Hlt]. unfold increasing. rewrite fmap_app. simpl. split.
  - apply StronglySorted_app_2; [|done|repeat constructor].
    intros s1 s2 Hs1 ->%list_elem_of_singleton.
    by eapply Forall_forall in Hlt.
  - apply Forall_app. split; [|repeat constructor].
    eapply Forall_impl; [exact Hlt|]. simpl. lia.
Qed.

Lemma aged_insert t (self self' : UniformReplay (nat * A)) ev x :
  ev ++ fifo self' = fifo self ++ [(t, x)] -> aged t self -> aged (S t) self'.
Proof.
  intros Hfifo Hage. unfold aged.
  apply (increasing_suffix _ (fifo self ++ [(t, x)])).
  - by exists ev.
  - by apply increasing_snoc.
Qed.

Lemma reachable_at_aged t self : reachable_at t self -> wf self /\ aged t self.
Proof.
  induction 1 as [ memory_size sss Hcap
                 | t self x _ [Hwf Hage]
                 | t self k rnd _ IH
                 | t self n _ [Hwf Hage] Hn].
  - split; [by apply init_wf|]. split; constructor.
  - destruct (insert_fifo self (t, x) Hwf)
      as (ev & self' & -> & Hwf' & _ & Hfifo & _).
    split; [done|]. by eapply aged_insert.
  - by rewrite sample_state.
  - destruct (evict_clamped self n Hwf Hn)
      as (ev & self' & -> & Hwf' & _ & _ & Hsuffix & _).
    split; [done|]. by eapply increasing_suffix.
Qed.
End Ages.

Lemma wrapped_store_reachable : reachable wrapped_store.
Proof. apply replay_reachable; [lia|]. repeat constructor. Qed.

Lemma shrunk_store_reachable : reachable shrunk_store.
Proof. apply replay_reachable; [lia|]. repeat constructor. simpl. lia. Qed.

Lemma filling_store_reachable : reachable filling_store.
Proof. apply replay_reachable; [lia|]. repeat constructor. Qed.

Lemma full_store_reachable : reachable full_store.
Proof. apply replay_reachable; [lia|]. repeat constructor. Qed.

Lemma stamped_store_reachable : reachable_at 4 stamped_store.
Proof. unfold stamped_store. cbv zeta. repeat apply at_insert. apply at_init. lia. Qed.

Example wrapped_store_eq : wrapped_store = mkReplay [4; 2; 3]%nat 3 0 1.
Proof. reflexivity. Qed.

Example shrunk_store_eq : shrunk_store = mkReplay [4; 3]%nat 3 0 1.
Proof. reflexivity. Qed.

Example stamped_store_erase : erase stamped_store = wrapped_store.
Proof. reflexivity. Qed.

(** ** Insertion *)

(** A store that has only ever been filled by [insert] (and read by
    [sample]) keeps its cursor at the end of the slots until it is full. *)
Lemma insert_only_filling {A} memory_size sampling_start_size (h : list (call (A := A))) :
  0 < memory_size ->
  Forall (fun c => forall n, c <> Evict n) h ->
  appending (replay memory_size sampling_start_size h).
Proof.
  intros Hcap Hh. unfold replay.
  assert (Hinit : wf (A := A) (__init__ memory_size sampling_start_size) /\
                  appending (A := A) (__init__ memory_size sampling_start_size)).
  { split; [by apply init_wf|done]. }
  revert Hinit. generalize (__init__ (A := A) memory_size sampling_start_size).
  induction Hh as [|c h Hc _ IH]; intros self [Hwf Hfill]; simpl; [done|].
  apply IH. unfold appending in *. destruct c as [x|k rnd|n]; simpl.
  - destruct (decide (_next_idx self = Py.len (_memory self))) as [Heq|Hne].
    + destruct Hwf as (Hidx & Hlen & Hlt).
      rewrite insert_append by lia. simpl.
      unfold wf. simpl. rewrite len_app. change (Py.len [x]) with 1.
      rewrite Heq in *.
      destruct (decide (Py.len (_memory self) + 1 = _maxsize self)) as [<-|Hfull].
      * rewrite Z_mod_same_full. split; lia.
      * rewrite Z.mod_small by lia. split; lia.
    + destruct (insert_fifo self x Hwf)
        as (ev & self' & -> & Hwf' & Hcap' & _ & Hev & Hlen & Hone).
      simpl. split; [done|]. intros Hroom.
      destruct ev as [|old [|]]; simpl in Hone; [|..].
      * by destruct Hne, Hev as [-> _].
      * change (Py.len [old]) with 1 in Hlen. destruct Hwf as (? & ? & ?). lia.
      * lia.
  - by rewrite sample_state.
  - by destruct (Hc n).
Qed.

(** Where insertion does append: in every reachable state with room whose
    cursor stands at the end of the slots, the record is appended, nothing
    is displaced, and the cursor moves to the new length modulo the
    capacity. *)
Lemma insert_appends_at_end {A} (self : UniformReplay A) (x : A) :
  reachable self ->
  Py.len (_memory self) < _maxsize self ->
  _next_idx self = Py.len (_memory self) ->
  exists self',
    _insert x self = Returned [] self' /\
    _memory self' = _memory self ++ [x] /\
    _maxsize self' = _maxsize self /\
    _next_idx self' = Py.len (_memory self') mod _maxsize self'.
Proof.
  intros Hreach Hroom Hidx.
  destruct (reachable_wf self Hreach) as (Hnonneg & _ & Hlt).
  rewrite insert_append by lia.
  eexists. split; [reflexivity|]. simpl.
  rewrite len_app, Hidx. done.
Qed.

(** Where it does not: after a forward-span eviction of at least one record
    the store has room, but the cursor still points into the slots, so the
    next insert overwrites the slot under the cursor and hands that record
    back; the store does not grow. *)
Lemma insert_after_forward_evict {A} (self : UniformReplay A) (n : Z) (x : A) :
  reachable self ->
  1 <= n < Py.len (_memory self) - _next_idx self ->
  let self1 := state_after (_evict n self) in
  Py.len (_memory self1) < _maxsize self1 /\
  _next_idx self1 < Py.len (_memory self1) /\
  exists old self2,
    _memory self1 !! Z.to_nat (_next_idx self1) = Some old /\
    _insert x self1 = Returned [old] self2 /\
    Py.len (_memory self2) = Py.len (_memory self1).
Proof.
  intros Hreach Hn. destruct (reachable_wf self Hreach) as (Hidx & Hlen & Hlt).
  rewrite evict_forward by lia. simpl.
  set (self1 := mkReplay _ _ _ _).
  assert (Hsize : Py.len (_memory self1) = Py.len (_memory self) - n).
  { unfold self1, Py.len in *. simpl.
    rewrite length_app, length_take, length_drop. lia. }
  split_and!; [simpl in *; lia..|].
  destruct (insert_overwrite self1 x) as (old & Hold & Hrun);
    [simpl in *; lia..|].
  eexists old, _. split_and!; [exact Hold|exact Hrun|].
  simpl. unfold Py.len. by rewrite length_insert.
Qed.

(** C1: the store of capacity 3 that received 1, 2, 3, 4 and then
    [evict(1)] holds [4; 3], two records of three, with the cursor at 1.
    The claim asks the next insert to append and to displace nothing; the
    code overwrites the slot under the cursor and hands back record 3, so
    the store still holds two records.  After an eviction through the
    wrap-around branch, on the other hand, the cursor stands at the end of
    the slots and the same insert appends. *)
Theorem insert_after_evict_drops_record :
  reachable shrunk_store /\
  shrunk_store = state_after (_evict 1 wrapped_store) /\
  shrunk_store = mkReplay [4; 3]%nat 3 0 1 /\
  Py.len (_memory shrunk_store) < _maxsize shrunk_store /\
  _insert 5%nat shrunk_store = Returned [3%nat] (mkReplay [4; 5]%nat 3 0 2) /\
  state_after (_evict 2 (mkReplay [4; 5; 3]%nat 3 0 2)) = mkReplay [5]%nat 3 0 1 /\
  _insert 6%nat (mkReplay [5]%nat 3 0 1) = Returned [] (mkReplay [5; 6]%nat 3 0 2).
Proof.
  split; [exact shrunk_store_reachable|]. split_and!; reflexivity.
Qed.

(** C2: in every reachable state a call of [insert] displaces at most one
    stored record (what it returns together with the new slots is the old
    slots plus the new record), and a displaced record is the one with the
    least insertion stamp among the records that were stored.  The plain
    store, without the stamps, returns and keeps the same records. *)
Theorem insert_displaces_oldest {A} (t : nat) (self : UniformReplay (nat * A)) (x : A) :
  reachable_at t self ->
  exists ev self',
    _insert (t, x) self = Returned ev self' /\
    _insert x (erase self) = Returned (snd <$> ev) (erase self') /\
    (length ev <= 1)%nat /\
    ev ++ _memory self' ≡ₚ _memory self ++ [(t, x)] /\
    forall old, old ∈ ev ->
      old ∈ _memory self /\
      forall y, y ∈ _memory self -> y = old \/ (old.1 < y.1)%nat.
Proof.
  intros Hat. destruct (reachable_at_aged t self Hat) as [Hwf [Hsorted _]].
  destruct (insert_fifo self (t, x) Hwf)
    as (ev & self' & Hrun & Hwf' & _ & Hfifo & Hev & _ & Hone).
  exists ev, self'. split_and!; [done| |done| |].
  - unfold erase. change x with (snd (t, x)) at 1.
    by rewrite insert_natural, Hrun.
  - by rewrite <- (fifo_perm self'), Hfifo, fifo_perm.
  - intros old Hold.
    destruct ev as [|old' [|]]; simpl in Hone; [by apply elem_of_nil in Hold| |lia].
    apply list_elem_of_singleton in Hold as ->.
    assert (Hlen : length (fifo self) = length (_memory self))
      by (apply fifo_length; destruct Hwf; lia).
    destruct (fifo self) as [|first rest] eqn:Efifo.
    + destruct Hwf as (Hidx & _).
      assert (Hempty : Py.len (_memory self) = 0)
        by (unfold Py.len; simpl in Hlen; lia).
      destruct Hev as [_ Hev]. discriminate Hev. lia.
    + simpl in Hfifo. injection Hfifo as -> _.
      simpl in Hsorted. apply StronglySorted_cons in Hsorted as [Hfirst _].
      assert (Hmem : forall y, y ∈ _memory self <-> y ∈ first :: rest)
        by (intros y; by rewrite <- Efifo, fifo_perm).
      split; [apply Hmem; left|].
      intros y [->|Hy]%Hmem%elem_of_cons; [by left|right].
      eapply Forall_forall in Hfirst; [exact Hfirst|].
      by apply list_elem_of_fmap_2.
Qed.

Lemma insert_displaces_oldest_witness :
  reachable_at 4 stamped_store /\
  exists ev self',
    _insert (4%nat, 5%nat) stamped_store = Returned ev self' /\
    _insert 5%nat (erase stamped_store) = Returned (snd <$> ev) (erase self') /\
    (length ev <= 1)%nat /\
    ev ++ _memory self' ≡ₚ _memory stamped_store ++ [(4%nat, 5%nat)] /\
    forall old, old ∈ ev ->
      old ∈ _memory stamped_store /\
      forall y, y ∈ _memory stamped_store -> y = old \/ (old.1 < y.1)%nat.
Proof.
  split; [exact stamped_store_reachable|].
  apply (insert_displaces_oldest 4 stamped_store 5%nat).
  exact stamped_store_reachable.
Defined.

Example insert_into_stamped_store :
  _insert (4%nat, 5%nat) stamped_store =
    Returned [(1%nat, 2%nat)]
      (mkReplay [(3%nat, 4%nat); (4%nat, 5%nat); (2%nat, 3%nat)] 3 0 2).
Proof. reflexivity. Qed.

(** C10: from a new store of positive capacity, every sequence of [insert],
    [sample] and [evict] calls (the latter with a non-negative count) keeps
    0 <= cursor <= len(slots) <= capacity and cursor < capacity; hence
    [insert] never raises and either appends at the end or overwrites a
    slot that exists. *)
Theorem cursor_invariant {A} memory_size sampling_start_size (h : list (call (A := A))) :
  0 < memory_size ->
  Forall admissible h ->
  let self := replay memory_size sampling_start_size h in
  (0 <= _next_idx self <= Py.len (_memory self) /\
   Py.len (_memory self) <= _maxsize self /\
   _next_idx self < _maxsize self) /\
  _maxsize self = memory_size /\
  forall x, exists ev self',
    _insert x self = Returned ev self' /\
    ((ev = [] /\ _memory self' = _memory self ++ [x]) \/
     (exists i old, _memory self !! i = Some old /\ ev = [old] /\
                    _memory self' = <[i := x]> (_memory self))).
Proof.
  intros Hcap Hh self.
  assert (Hreach : reachable self) by by apply replay_reachable.
  pose proof (reachable_wf self Hreach) as Hwf. split; [exact Hwf|]. split.
  - unfold self, replay. clear. 
    assert (Hinit : _maxsize (__init__ (A := A) memory_size sampling_start_size)
                    = memory_size) by done.
    revert Hinit. generalize (__init__ (A := A) memory_size sampling_start_size).
    induction h as [|c h IH]; intros s Hs; simpl; [done|]. apply IH.
    destruct c as [x|k rnd|n]; simpl.
    + unfold _insert, py_mod, bind, attr, assign, expect, ret, raise. simpl.
      destruct (_ <=? _); simpl.
      * by destruct (_maxsize s =? 0).
      * destruct (Py.getitem _ _); simpl; [|done].
        destruct (Py.setitem _ _ _); simpl; [|done].
        by destruct (_maxsize s =? 0).
    + by rewrite sample_state.
    + unfold _evict, bind, attr, assign, py_assert, ret, raise. simpl.
      destruct (_ <? n); simpl; [done|].
      destruct (n <? _); simpl; by destruct (_ =? n).
  - intros x. destruct Hwf as (Hidx & Hlen & Hlt).
    destruct (decide (_next_idx self = Py.len (_memory self))) as [Heq|Hne].
    + rewrite insert_append by lia. eexists _, _. split; [reflexivity|].
      by left.
    + destruct (insert_overwrite self x) as (old & Hold & ->); [lia..|].
      eexists _, _. split; [reflexivity|]. right.
      by exists (Z.to_nat (_next_idx self)), old.
Qed.

Lemma cursor_invariant_witness :
  let self := shrunk_store in
  (0 <= _next_idx self <= Py.len (_memory self) /\
   Py.len (_memory self) <= _maxsize self /\
   _next_idx self < _maxsize self) /\
  _maxsize self = 3 /\
  forall x, exists ev self',
    _insert x self = Returned ev self' /\
    ((ev = [] /\ _memory self' = _memory self ++ [x]) \/
     (exists i old, _memory self !! i = Some old /\ ev = [old] /\
                    _memory self' = <[i := x]> (_memory self))).
Proof.
  apply (cursor_invariant 3 0
           [Insert 1%nat; Insert 2%nat; Insert 3%nat; Insert 4%nat; Evict 1]).
  - lia.
  - repeat constructor. simpl. lia.
Defined.

(** ** Bulk eviction *)

(** A count equal to the number of stored records takes the wrap-around
    path and returns the records oldest first. *)
Lemma evict_exact_size {A} (self : UniformReplay A) :
  wf self ->
  _evict (Py.len (_memory self)) self =
    Returned (fifo self)
      (mkReplay [] (_maxsize self) (_sampling_start_size self) 0).
Proof.
  intros (Hidx & Hlen & Hlt).
  rewrite evict_wrap by lia. simpl.
  replace (Py.len (_memory self) - (Py.len (_memory self) - _next_idx self))
    with (_next_idx self) by lia.
  rewrite (drop_ge (take _ _)) by (rewrite length_take; lia).
  by rewrite Z.sub_diag.
Qed.

(** A count of at least the number of stored records empties the store,
    resets the cursor and returns every record; beyond that number the
    records come back in storage order. *)
Lemma evict_at_least_size {A} (self : UniformReplay A) n :
  wf self -> Py.len (_memory self) <= n ->
  exists ev,
    _evict n self =
      Returned ev (mkReplay [] (_maxsize self) (_sampling_start_size self) 0) /\
    ev ≡ₚ fifo self /\
    (n = Py.len (_memory self) -> ev = fifo self) /\
    (Py.len (_memory self) < n -> ev = _memory self).
Proof.
  intros Hwf Hn. destruct (decide (n = Py.len (_memory self))) as [->|Hne].
  - exists (fifo self). rewrite evict_exact_size by done.
    split_and!; [done..|lia].
  - exists (_memory self). rewrite evict_all by lia.
    split_and!; [done|by rewrite fifo_perm|done..].
Qed.

(** After an eviction that reaches the wrap-around path the cursor stands
    at the end of the slots again. *)
Lemma evict_wrap_cursor {A} (self : UniformReplay A) n :
  wf self -> Py.len (_memory self) - _next_idx self <= n ->
  let self' := state_after (_evict n self) in
  _next_idx self' = Py.len (_memory self').
Proof.
  intros (Hidx & Hlen & Hlt) Hn.
  destruct (decide (n <= Py.len (_memory self))) as [Hle|Hgt].
  - rewrite evict_wrap by lia. simpl. unfold Py.len in *.
    rewrite length_drop, length_take. lia.
  - by rewrite evict_all by lia.
Qed.

(** C3: with the slots [4; 2; 3] and the cursor at 1 the oldest-first
    order is 2, 3, 4.  [evict(3)] returns exactly that, whereas [evict(4)]
    takes the early-return path and hands back the slots in storage order. *)
Theorem evict_beyond_size_order :
  reachable wrapped_store /\
  fifo wrapped_store = [2; 3; 4]%nat /\
  _evict 3 wrapped_store = Returned [2; 3; 4]%nat (mkReplay [] 3 0 0) /\
  _evict 4 wrapped_store = Returned [4; 2; 3]%nat (mkReplay [] 3 0 0).
Proof.
  split; [exact wrapped_store_reachable|]. by split_and!.
Qed.

(** What a negative count does: the early return and the wrap-around path
    are skipped, the slice [cursor : cursor + count] is cut out, and the
    post-condition assertion fails. *)
Lemma evict_negative {A} (self : UniformReplay A) n :
  wf self -> n < 0 ->
  _evict n self =
    Raised AssertionError
      (set_memory (Py.del_slice (_memory self) (Some (_next_idx self))
                                (Some (_next_idx self + n))) self).
Proof.
  intros (Hidx & Hlen & Hlt) Hn.
  unfold _evict, bind, attr, assign, py_assert, ret, raise. simpl.
  pose proof (len_nonneg (_memory self)).
  destruct (Z.ltb_spec (Py.len (_memory self)) n); [lia|].
  destruct (Z.ltb_spec n (Py.len (_memory self) - _next_idx self)); [|lia].
  simpl.
  pose proof (len_nonneg (Py.slice (_memory self) (Some (_next_idx self))
                                   (Some (_next_idx self + n)))).
  destruct (Z.eqb_spec (Py.len (Py.slice (_memory self) (Some (_next_idx self))
                                   (Some (_next_idx self + n)))) n); [lia|done].
Qed.

(** C4 (amended): in every reachable state [evict] with a negative count
    ends in an error (the post-condition assertion) and never moves the
    cursor; the slots are untouched whenever cursor + count >= 0 or
    count <= -len(slots). *)
Theorem evict_negative_raises {A} (self : UniformReplay A) (n : Z) :
  reachable self -> n < 0 ->
  exists self',
    _evict n self = Raised AssertionError self' /\
    _next_idx self' = _next_idx self /\
    _maxsize self' = _maxsize self /\
    (0 <= _next_idx self + n \/ n <= - Py.len (_memory self) -> self' = self).
Proof.
  intros Hreach Hn. pose proof (reachable_wf self Hreach) as Hwf.
  rewrite evict_negative by done.
  eexists. split; [reflexivity|]. split_and!; [done..|].
  destruct Hwf as (Hidx & Hlen & Hlt). intros Hsafe.
  destruct self as [mem cap sss idx]. unfold set_memory. simpl in *. f_equal.
  unfold Py.del_slice, Py.clamp.
  destruct (Z.ltb_spec idx 0); [lia|]. rewrite Z.min_l by lia.
  rewrite Nat.max_l, take_drop; [done|].
  destruct (Z.ltb_spec (idx + n) 0); lia.
Qed.

Lemma evict_negative_raises_witness :
  reachable wrapped_store /\
  exists self',
    _evict (-1) wrapped_store = Raised AssertionError self' /\
    _next_idx self' = _next_idx wrapped_store /\
    _maxsize self' = _maxsize wrapped_store /\
    (0 <= _next_idx wrapped_store + -1 \/ -1 <= - Py.len (_memory wrapped_store) ->
     self' = wrapped_store).
Proof.
  split; [exact wrapped_store_reachable|].
  apply (evict_negative_raises wrapped_store (-1)).
  - exact wrapped_store_reachable.
  - lia.
Defined.

(** C4 (as stated) fails: on the full store [1; 2] with the cursor at 0,
    [evict(-1)] removes the record 1 before the assertion fails. *)
Lemma evict_negative_counterexample :
  reachable full_store /\
  full_store = mkReplay [1; 2]%nat 2 0 0 /\
  _evict (-1) full_store = Raised AssertionError (mkReplay [2]%nat 2 0 0).
Proof.
  split; [exact full_store_reachable|]. by split.
Qed.

(** C6: for 0 <= count < len(slots), a count below the forward span removes
    and returns slots[cursor : cursor + count] and keeps the cursor;
    otherwise the forward span slots[cursor:] followed by the front slice
    slots[:extra] is removed and returned, and the cursor drops by extra. *)
Theorem evict_partial {A} (self : UniformReplay A) (n : Z) :
  reachable self ->
  0 <= n < Py.len (_memory self) ->
  let c := Z.to_nat (_next_idx self) in
  let k := Z.to_nat n in
  let extra := n - (Py.len (_memory self) - _next_idx self) in
  (n < Py.len (_memory self) - _next_idx self ->
   _evict n self =
     Returned (take k (drop c (_memory self)))
       (mkReplay (take c (_memory self) ++ drop (c + k) (_memory self))
          (_maxsize self) (_sampling_start_size self) (_next_idx self))) /\
  (Py.len (_memory self) - _next_idx self <= n ->
   _evict n self =
     Returned (drop c (_memory self) ++ take (Z.to_nat extra) (_memory self))
       (mkReplay (drop (Z.to_nat extra) (take c (_memory self)))
          (_maxsize self) (_sampling_start_size self) (_next_idx self - extra))).
Proof.
  intros Hreach Hn c k extra.
  destruct (reachable_wf self Hreach) as (Hidx & Hlen & Hlt). split; intros Hcase.
  - apply evict_forward; lia.
  - apply (evict_wrap self n); lia.
Qed.

Lemma evict_partial_witness :
  reachable wrapped_store /\
  (1 < Py.len (_memory wrapped_store) - _next_idx wrapped_store ->
   _evict 1 wrapped_store = Returned [2%nat] (mkReplay [4; 3]%nat 3 0 1)) /\
  (Py.len (_memory wrapped_store) - _next_idx wrapped_store <= 1 ->
   _evict 1 wrapped_store = Returned [2; 3]%nat (mkReplay [4]%nat 3 0 2)).
Proof.
  split; [exact wrapped_store_reachable|].
  apply (evict_partial wrapped_store 1).
  - exact wrapped_store_reachable.
  - vm_compute. split; [discriminate|reflexivity].
Defined.

(** C7: for 0 <= count <= len(slots) the call returns, i.e. the
    post-condition assertion holds: exactly count records are returned and
    the store shrinks by exactly count. *)
Theorem evict_postcondition {A} (self : UniformReplay A) (n : Z) :
  reachable self ->
  0 <= n <= Py.len (_memory self) ->
  exists ev self',
    _evict n self = Returned ev self' /\
    Py.len ev = n /\
    __len__ self' = __len__ self - n.
Proof.
  intros Hreach Hn.
  destruct (evict_fifo self n) as (ev & self' & Hrun & _ & _ & _ & Hev & Hlen);
    [by apply reachable_wf|done|].
  by exists ev, self'.
Qed.

Lemma evict_postcondition_witness :
  reachable wrapped_store /\
  exists ev self',
    _evict 2 wrapped_store = Returned ev self' /\
    Py.len ev = 2 /\
    __len__ self' = __len__ wrapped_store - 2.
Proof.
  split; [exact wrapped_store_reachable|].
  apply (evict_postcondition wrapped_store 2).
  - exact wrapped_store_reachable.
  - vm_compute. split; discriminate.
Defined.

(** C8: for a, b >= 0, [evict(a)] followed by [evict(b)] removes as many
    records in total as the single call [evict(min(a + b, size))]. *)
Theorem evict_twice_total {A} (self : UniformReplay A) (a b : Z) :
  reachable self -> 0 <= a -> 0 <= b ->
  exists ev1 self1 ev2 self2 ev self',
    _evict a self = Returned ev1 self1 /\
    _evict b self1 = Returned ev2 self2 /\
    _evict (Z.min (a + b) (__len__ self)) self = Returned ev self' /\
    Py.len ev1 + Py.len ev2 = Py.len ev /\
    __len__ self2 = __len__ self'.
Proof.
  intros Hreach Ha Hb. pose proof (reachable_wf self Hreach) as Hwf.
  pose proof (len_nonneg (_memory self)) as Hsize.
  destruct (evict_clamped self a Hwf Ha)
    as (ev1 & self1 & Hrun1 & Hwf1 & _ & _ & _ & Hev1 & Hlen1).
  destruct (evict_clamped self1 b Hwf1 Hb)
    as (ev2 & self2 & Hrun2 & _ & _ & _ & _ & Hev2 & Hlen2).
  destruct (evict_clamped self (Z.min (a + b) (__len__ self)) Hwf)
    as (ev & self' & Hrun & _ & _ & _ & _ & Hev & Hlen);
    [unfold __len__; lia|].
  exists ev1, self1, ev2, self2, ev, self'.
  unfold __len__ in *. split_and!; [done..|lia|lia].
Qed.

Lemma evict_twice_total_witness :
  reachable wrapped_store /\
  exists ev1 self1 ev2 self2 ev self',
    _evict 1 wrapped_store = Returned ev1 self1 /\
    _evict 5 self1 = Returned ev2 self2 /\
    _evict (Z.min (1 + 5) (__len__ wrapped_store)) wrapped_store = Returned ev self' /\
    Py.len ev1 + Py.len ev2 = Py.len ev /\
    __len__ self2 = __len__ self'.
Proof.
  split; [exact wrapped_store_reachable|].
  apply (evict_twice_total wrapped_store 1 5).
  - exact wrapped_store_reachable.
  - lia.
  - lia.
Defined.

Example evict_forward_span :
  _evict 1 wrapped_store = Returned [2%nat] (mkReplay [4; 3]%nat 3 0 1).
Proof. reflexivity. Qed.

Example evict_across_wrap :
  _evict 2 (mkReplay [4; 5; 3]%nat 3 0 2) = Returned [3; 4]%nat (mkReplay [5]%nat 3 0 1).
Proof. reflexivity. Qed.

(** ** Sampling *)

(** C5 (amended): in every reachable state [sample] fails exactly when the
    store is empty and the batch size is positive; a non-positive batch
    size yields the empty batch, also on an empty store. *)
Theorem sample_fails_iff {A} (self : UniformReplay A) (batch_size : Z) (rnd : nat -> Z) :
  reachable self ->
  (raises (_sample batch_size rnd self) = true <->
   Py.len (_memory self) = 0 /\ 0 < batch_size) /\
  (batch_size <= 0 -> _sample batch_size rnd self = Returned [] self).
Proof.
  intros _. pose proof (len_nonneg (_memory self)) as Hsize.
  split; [|apply sample_nonpositive].
  destruct (decide (batch_size <= 0)) as [Hk|Hk].
  - rewrite sample_nonpositive by done. simpl. split; [done|lia].
  - destruct (decide (Py.len (_memory self) = 0)) as [Hempty|Hsome].
    + rewrite sample_empty by lia. simpl. split; [lia|done].
    + destruct (sample_nonempty self batch_size rnd) as (recs & -> & _); [lia|].
      simpl. split; [done|lia].
Qed.

Lemma sample_fails_iff_witness :
  reachable wrapped_store /\
  (raises (_sample 2 (fun j => Z.of_nat j) wrapped_store) = true <->
   Py.len (_memory wrapped_store) = 0 /\ 0 < 2) /\
  (2 <= 0 -> _sample 2 (fun j => Z.of_nat j) wrapped_store = Returned [] wrapped_store).
Proof.
  split; [exact wrapped_store_reachable|].
  apply (sample_fails_iff wrapped_store 2 (fun j => Z.of_nat j)).
  exact wrapped_store_reachable.
Defined.

(** C5 (as stated) fails: a batch size of 0 or below is not an error, it
    yields the empty batch, on an empty store as well as on a filled one. *)
Lemma sample_nonpositive_counterexample :
  (reachable (__init__ (A := nat) 3 0) /\
   Py.len (_memory (__init__ (A := nat) 3 0)) = 0 /\
   _sample 0 (fun _ => 0) (__init__ (A := nat) 3 0) = Returned [] (__init__ 3 0)) /\
  (reachable wrapped_store /\
   _sample (-2) (fun _ => 0) wrapped_store = Returned [] wrapped_store).
Proof.
  split.
  - split; [by constructor|]. by split.
  - split; [exact wrapped_store_reachable|done].
Qed.

(** C9: on a reachable store holding at least one record, [sample(k)] with
    k > 0 returns exactly k records, the j-th of them being the slot picked
    by the j-th draw, so every returned record is stored; the slots and the
    cursor stay as they were. *)
Theorem sample_returns_members {A} (self : UniformReplay A) (k : Z) (rnd : nat -> Z) :
  reachable self ->
  1 <= Py.len (_memory self) ->
  0 < k ->
  exists recs,
    _sample k rnd self = Returned recs self /\
    Py.len recs = k /\
    (forall r, r ∈ recs -> r ∈ _memory self) /\
    (forall j, (j < Z.to_nat k)%nat ->
       (drawn (Py.len (_memory self)) rnd j < length (_memory self))%nat /\
       recs !! j = _memory self !! drawn (Py.len (_memory self)) rnd j).
Proof.
  intros _ Hsize Hk.
  destruct (sample_nonempty self k rnd Hsize) as (recs & Hrun & Hrecs).
  exists recs. split; [done|].
  assert (Hlen : length recs = Z.to_nat k).
  { apply Forall2_length in Hrecs. unfold Py.range in Hrecs.
    by rewrite length_seq in Hrecs. }
  split_and!.
  - unfold Py.len. lia.
  - intros r (j & Hj)%list_elem_of_lookup_1.
    destruct (Forall2_lookup_r _ _ _ _ _ Hrecs Hj) as (i & _ & Hi).
    by eapply list_elem_of_lookup_2.
  - intros j Hj.
    assert (Hseq : Py.range k !! j = Some j).
    { unfold Py.range. by rewrite lookup_seq_lt. }
    destruct (Forall2_lookup_l _ _ _ _ _ Hrecs Hseq) as (r & Hr & Hmem).
    rewrite Hr, Hmem. split; [|done].
    by eapply lookup_lt_Some.
Qed.

Lemma sample_returns_members_witness :
  reachable wrapped_store /\
  exists recs,
    _sample 4 (fun j => Z.of_nat j) wrapped_store = Returned recs wrapped_store /\
    Py.len recs = 4 /\
    (forall r, r ∈ recs -> r ∈ _memory wrapped_store) /\
    (forall j, (j < Z.to_nat 4)%nat ->
       (drawn (Py.len (_memory wrapped_store)) (fun j => Z.of_nat j) j
          < length (_memory wrapped_store))%nat /\
       recs !! j =
         _memory wrapped_store
           !! drawn (Py.len (_memory wrapped_store)) (fun j => Z.of_nat j) j).
Proof.
  split; [exact wrapped_store_reachable|].
  apply (sample_returns_members wrapped_store 4 (fun j => Z.of_nat j)).
  - exact wrapped_store_reachable.
  - vm_compute. discriminate.
  - lia.
Defined.

Example sample_draws_with_replacement :
  _sample 4 (fun j => Z.of_nat j) wrapped_store
  = Returned [4; 2; 3; 4]%nat wrapped_store.
Proof. reflexivity. Qed.


(** * Further properties of the store *)

(** ** What no call touches *)

Lemma call_frame {A} (self : UniformReplay A) (c : call) :
  _maxsize (state_after (run_call c self)) = _maxsize self /\
  _sampling_start_size (state_after (run_call c self)) = _sampling_start_size self.
Proof.
  destruct c as [x|k rnd|n]; simpl.
  - unfold _insert, py_mod, bind, attr, assign, expect, ret, raise. simpl.
    destruct (_ <=? _); simpl.
    + by destruct (_maxsize self =? 0).
    + destruct (Py.getitem _ _); simpl; [|done].
      destruct (Py.setitem _ _ _); simpl; [|done].
      by destruct (_maxsize self =? 0).
  - by rewrite sample_state.
  - unfold _evict, bind, attr, assign, py_assert, ret, raise. simpl.
    destruct (_ <? n); simpl; [done|].
    destruct (n <? _); simpl; by destruct (_ =? n).
Qed.

Lemma replay_frame {A} memory_size sampling_start_size (h : list (call (A := A))) :
  _maxsize (replay memory_size sampling_start_size h) = memory_size /\
  _sampling_start_size (replay memory_size sampling_start_size h)
    = sampling_start_size.
Proof.
  unfold replay.
  assert (Hinit : _maxsize (__init__ (A := A) memory_size sampling_start_size)
                    = memory_size /\
                  _sampling_start_size (__init__ (A := A) memory_size sampling_start_size)
                    = sampling_start_size) by done.
  revert Hinit. generalize (__init__ (A := A) memory_size sampling_start_size).
  induction h as [|c h IH]; intros self [Hcap Hsss]; simpl; [done|].
  apply IH. destruct (call_frame self c) as [-> ->]. done.
Qed.

Lemma replay_snoc {A} memory_size sampling_start_size (h : list (call (A := A))) c :
  replay memory_size sampling_start_size (h ++ [c]) =
  state_after (run_call c (replay memory_size sampling_start_size h)).
Proof. unfold replay. by rewrite foldl_app. Qed.

(** ** No record is lost or made up *)

Lemma call_conserves {A} (self : UniformReplay A) (c : call) :
  wf self -> admissible c ->
  inserted [c] ++ _memory self ≡ₚ
  handed_back c (run_call c self) ++ _memory (state_after (run_call c self)).
Proof.
  intros Hwf Hc. destruct c as [x|k rnd|n]; simpl in *.
  - destruct (insert_fifo self x Hwf) as (ev & self' & -> & _ & _ & Hfifo & _).
    simpl. rewrite <- (fifo_perm self'), Hfifo, fifo_perm.
    by rewrite (comm (++)).
  - by rewrite sample_state.
  - destruct (evict_clamped self n Hwf Hc) as (ev & self' & -> & _ & _ & Hperm & _).
    simpl. by rewrite <- (fifo_perm self'), Hperm, fifo_perm.
Qed.

Lemma ledger_balance {A} (h : list (call (A := A))) :
  Forall admissible h ->
  forall (self : UniformReplay A) (out pre : list A),
    wf self -> pre ≡ₚ out ++ _memory self ->
    let r := foldl (fun acc c =>
                      let o := run_call c acc.1 in
                      (state_after o, acc.2 ++ handed_back c o))
                   (self, out) h in
    r.1 = foldl (fun self c => state_after (run_call c self)) self h /\
    pre ++ inserted h ≡ₚ r.2 ++ _memory r.1.
Proof.
  induction 1 as [|c h Hc _ IH]; intros self out pre Hwf Hpre; simpl.
  - split; [done|]. by rewrite app_nil_r.
  - destruct (IH (state_after (run_call c self))
                 (out ++ handed_back c (run_call c self))
                 (pre ++ inserted [c])) as [Hstate Hbal].
    + by apply call_wf.
    + rewrite Hpre, <- !(assoc (++)). f_equiv.
      rewrite (comm (++) (_memory self)). by apply call_conserves.
    + split; [done|]. rewrite <- Hbal, <- (assoc (++)). f_equiv.
      unfold inserted. by destruct c.
Qed.

(** X1: from a new store of positive capacity and along any admissible
    history, the records passed to [_insert] are, as a multiset, exactly
    the records handed back by [_insert] and [_evict] so far together with
    the records still stored. *)
Theorem records_conserved {A} memory_size sampling_start_size (h : list (call (A := A))) :
  0 < memory_size ->
  Forall admissible h ->
  (replay_log memory_size sampling_start_size h).1
    = replay memory_size sampling_start_size h /\
  inserted h ≡ₚ
    (replay_log memory_size sampling_start_size h).2
      ++ _memory (replay memory_size sampling_start_size h).
Proof.
  intros Hcap Hh.
  destruct (ledger_balance h Hh (__init__ memory_size sampling_start_size) [] [])
    as [Hstate Hbal]; [by apply init_wf|done|].
  split; [exact Hstate|]. unfold replay_log, replay.
  simpl in Hbal. by rewrite <- Hstate.
Qed.

Lemma records_conserved_witness :
  let h := [Insert 1%nat; Insert 2%nat; Insert 3%nat; Insert 4%nat;
            Evict 1; Sample 2 (fun j => Z.of_nat j); Insert 5%nat; Evict 9] in
  (replay_log 3 0 h).1 = replay 3 0 h /\
  inserted h ≡ₚ (replay_log 3 0 h).2 ++ _memory (replay 3 0 h).
Proof.
  apply (records_conserved 3 0).
  - lia.
  - repeat constructor; simpl; lia.
Defined.

Example records_conserved_log :
  replay_log 3 0 [Insert 1%nat; Insert 2%nat; Insert 3%nat; Insert 4%nat;
                  Evict 1; Sample 2 (fun j => Z.of_nat j); Insert 5%nat; Evict 9]
  = (mkReplay [] 3 0 0, [1; 2; 3; 4; 5]%nat).
Proof. reflexivity. Qed.

(** ** A store that is only inserted into *)

Lemma inserts_admissible {A} (xs : list A) :
  Forall admissible (Insert <$> xs) /\
  Forall (fun c => forall n, c <> Evict n) (Insert (A := A) <$> xs).
Proof.
  split; apply Forall_fmap, Forall_forall; intros x _; simpl; [done|].
  intros n. discriminate.
Qed.

Lemma inserts_fifo {A} memory_size sampling_start_size (xs : list A) :
  0 < memory_size ->
  fifo (replay memory_size sampling_start_size (Insert <$> xs))
    = drop (length xs - Z.to_nat memory_size) xs.
Proof.
  intros Hcap. induction xs as [|x xs IH] using rev_ind; [done|].
  rewrite fmap_app. simpl. rewrite replay_snoc. simpl.
  set (self := replay memory_size sampling_start_size (Insert <$> xs)) in *.
  destruct (inserts_admissible xs) as [Hadm Hins].
  assert (Hwf : wf self) by by apply reachable_wf, replay_reachable.
  assert (Happ : appending self) by by apply insert_only_filling.
  destruct (replay_frame memory_size sampling_start_size (Insert <$> xs))
    as [Hmax _]. fold self in Hmax.
  assert (Hsize : length (_memory self)
                  = (length xs - (length xs - Z.to_nat memory_size))%nat).
  { rewrite <- fifo_length by (destruct Hwf; lia). by rewrite IH, length_drop. }
  destruct (insert_fifo self x Hwf)
    as (ev & self' & -> & _ & _ & Hfifo & Hev & _ & Hone).
  simpl. rewrite length_app. simpl. rewrite IH in Hfifo.
  unfold appending in Happ. destruct Hwf as (Hidx & Hlen & Hlt).
  unfold Py.len in *.
  destruct (decide (length xs < Z.to_nat memory_size)%nat) as [Hroom|Hfull].
  - assert (ev = []) as -> by (apply Hev; lia). simpl in Hfifo. rewrite Hfifo.
    replace (length xs - Z.to_nat memory_size)%nat with 0%nat by lia.
    replace (length xs + 1 - Z.to_nat memory_size)%nat with 0%nat by lia.
    done.
  - destruct ev as [|old [|]]; simpl in Hone; [|clear Hone|lia].
    { destruct Hev as [Hev _]. specialize (Hev eq_refl). lia. }
    replace (length xs + 1 - Z.to_nat memory_size)%nat
      with (length xs - Z.to_nat memory_size + 1)%nat by lia.
    rewrite <- drop_drop, drop_app_le by lia.
    rewrite <- Hfifo. done.
Qed.

(** X2: a new store of capacity C that receives only inserts holds exactly
    the last C inserted records, oldest first from the cursor on.  The next
    insert displaces nothing while fewer than C records were inserted, and
    afterwards displaces the record inserted C calls earlier. *)
Theorem inserts_keep_latest {A} memory_size sampling_start_size (xs : list A) (x : A) :
  0 < memory_size ->
  let self := replay memory_size sampling_start_size (Insert <$> xs) in
  let c := Z.to_nat memory_size in
  fifo self = drop (length xs - c) xs /\
  _memory self ≡ₚ drop (length xs - c) xs /\
  ((length xs < c)%nat -> exists self', _insert x self = Returned [] self') /\
  ((c <= length xs)%nat ->
   exists old self',
     xs !! (length xs - c)%nat = Some old /\
     _insert x self = Returned [old] self').
Proof.
  intros Hcap self c.
  pose proof (inserts_fifo memory_size sampling_start_size xs Hcap) as Hfifo.
  pose proof (inserts_fifo memory_size sampling_start_size (xs ++ [x]) Hcap) as Hnext.
  fold self c in Hfifo. rewrite fmap_app in Hnext. simpl in Hnext.
  rewrite replay_snoc in Hnext. fold self c in Hnext. simpl in Hnext.
  destruct (inserts_admissible xs) as [Hadm _].
  assert (Hwf : wf self) by by apply reachable_wf, replay_reachable.
  destruct (insert_fifo self x Hwf)
    as (ev & self' & Hrun & _ & _ & Hstep & _ & _ & Hone).
  rewrite Hrun in Hnext. simpl in Hnext.
  rewrite Hfifo, Hnext, length_app in Hstep. simpl in Hstep.
  split_and!; [done|by rewrite <- Hfifo, fifo_perm| |].
  - intros Hroom. exists self'. rewrite Hrun. f_equal.
    apply (f_equal length) in Hstep.
    rewrite !length_app, !length_drop, length_app in Hstep. simpl in Hstep.
    destruct ev; [done|simpl in Hstep; lia].
  - intros Hfull.
    destruct (lookup_lt_is_Some_2 xs (length xs - c)) as [old Hold]; [lia|].
    exists old, self'. split; [done|]. rewrite Hrun. f_equal.
    replace (length xs + 1 - c)%nat with (S (length xs - c)) in Hstep by lia.
    rewrite (drop_S xs old (length xs - c) Hold) in Hstep.
    rewrite drop_app_le in Hstep by (apply lookup_lt_Some in Hold; lia).
    destruct ev as [|y [|]]; simpl in Hone; [| |lia].
    + apply (f_equal length) in Hstep. simpl in Hstep.
      rewrite !length_app in Hstep. simpl in Hstep. lia.
    + simpl in Hstep. by injection Hstep as ->.
Qed.

Lemma inserts_keep_latest_witness :
  let self := replay 3 0 (Insert <$> [1; 2; 3; 4; 5]%nat) in
  let c := Z.to_nat 3 in
  fifo self = drop (length [1; 2; 3; 4; 5]%nat - c) [1; 2; 3; 4; 5]%nat /\
  _memory self ≡ₚ drop (length [1; 2; 3; 4; 5]%nat - c) [1; 2; 3; 4; 5]%nat /\
  ((length [1; 2; 3; 4; 5]%nat < c)%nat ->
   exists self', _insert 6%nat self = Returned [] self') /\
  ((c <= length [1; 2; 3; 4; 5]%nat)%nat ->
   exists old self',
     [1; 2; 3; 4; 5]%nat !! (length [1; 2; 3; 4; 5]%nat - c)%nat = Some old /\
     _insert 6%nat self = Returned [old] self').
Proof.
  apply (inserts_keep_latest 3 0 [1; 2; 3; 4; 5]%nat 6%nat). lia.
Defined.

(** ** Edge cases of eviction *)

(** X3: in every reachable state [evict(0)] returns nothing and leaves the
    slots and the cursor exactly as they were. *)
Theorem evict_zero {A} (self : UniformReplay A) :
  reachable self -> _evict 0 self = Returned [] self.
Proof.
  intros Hreach. destruct (reachable_wf self Hreach) as (Hidx & Hlen & Hlt).
  destruct self as [mem cap sss idx]. simpl in *.
  destruct (decide (0 < Py.len mem - idx)) as [Hfwd|Hend].
  - rewrite evict_forward by (simpl; lia). simpl.
    by rewrite Nat.add_0_r, take_drop.
  - rewrite evict_wrap by (simpl; lia). simpl.
    replace (0 - (Py.len mem - idx)) with 0 by lia. simpl.
    rewrite Z.sub_0_r, app_nil_r.
    rewrite drop_ge, take_ge by (unfold Py.len in *; lia). done.
Qed.

Lemma evict_zero_witness :
  _evict 0 shrunk_store = Returned [] shrunk_store.
Proof. apply (evict_zero shrunk_store). exact shrunk_store_reachable. Defined.

(** X4: evicting at least as many records as are stored puts the store back
    into the state of a newly constructed store with the same capacity and
    threshold. *)
Theorem evict_everything_resets {A} memory_size sampling_start_size
    (h : list (call (A := A))) (n : Z) :
  0 < memory_size ->
  Forall admissible h ->
  let self := replay memory_size sampling_start_size h in
  Py.len (_memory self) <= n ->
  state_after (_evict n self) = __init__ memory_size sampling_start_size.
Proof.
  intros Hcap Hh self Hn.
  assert (Hwf : wf self) by by apply reachable_wf, replay_reachable.
  destruct (replay_frame memory_size sampling_start_size h) as [Hmax Hsss].
  fold self in Hmax, Hsss.
  destruct (evict_at_least_size self n Hwf Hn) as (ev & -> & _).
  simpl. by rewrite Hmax, Hsss.
Qed.

Lemma evict_everything_resets_witness :
  state_after (_evict 3 wrapped_store) = __init__ 3 0.
Proof.
  apply (evict_everything_resets 3 0
           [Insert 1%nat; Insert 2%nat; Insert 3%nat; Insert 4%nat] 3).
  - lia.
  - repeat constructor.
  - vm_compute. discriminate.
Defined.

(** X5: on a reachable stamped store, [evict(count)] with
    0 <= count <= len(slots) returns its records from the oldest to the
    newest, and every record it returns is older than every record it
    leaves in the store. *)
Theorem evict_removes_oldest {A} (t : nat) (self : UniformReplay (nat * A)) (n : Z) :
  reachable_at t self ->
  0 <= n <= Py.len (_memory self) ->
  exists ev self',
    _evict n self = Returned ev self' /\
    Py.len ev = n /\
    StronglySorted lt (fst <$> ev) /\
    forall old kept, old ∈ ev -> kept ∈ _memory self' -> (old.1 < kept.1)%nat.
Proof.
  intros Hat Hn. destruct (reachable_at_aged t self Hat) as [Hwf [Hsorted _]].
  destruct (evict_fifo self n Hwf Hn)
    as (ev & self' & Hrun & _ & _ & Hfifo & Hlen & _).
  exists ev, self'. rewrite <- Hfifo, fmap_app in Hsorted.
  apply StronglySorted_app in Hsorted as (Hcross & Hev & _).
  split_and!; [done..|].
  intros old kept Hold Hkept. apply Hcross.
  - by apply list_elem_of_fmap_2.
  - apply list_elem_of_fmap_2. by rewrite fifo_perm.
Qed.

Lemma evict_removes_oldest_witness :
  exists ev self',
    _evict 2 stamped_store = Returned ev self' /\
    Py.len ev = 2 /\
    StronglySorted lt (fst <$> ev) /\
    forall old kept, old ∈ ev -> kept ∈ _memory self' -> (old.1 < kept.1)%nat.
Proof.
  apply (evict_removes_oldest 4 stamped_store 2).
  - exact stamped_store_reachable.
  - vm_compute. split; discriminate.
Defined.

(** ** The readiness gate *)



(** X7: when [start_sample_condition] holds and the threshold is not
    negative, [_sample] returns for every batch size: it yields
    max(batch_size, 0) stored records and leaves the store as it was. *)
Theorem ready_store_samples {A} (self : UniformReplay A) (k : Z) (rnd : nat -> Z) :
  start_sample_condition self = true ->
  0 <= _sampling_start_size self ->
  exists recs,
    _sample k rnd self = Returned recs self /\
    Py.len recs = Z.max k 0 /\
    forall r, r ∈ recs -> r ∈ _memory self.
Proof.
  unfold start_sample_condition, __len__. intros Hready Hthr.
  apply Z.ltb_lt in Hready.
  destruct (sample_nonempty self k rnd) as (recs & Hrun & Hrecs); [lia|].
  exists recs. split_and!; [done| |].
  - apply Forall2_length in Hrecs. unfold Py.range in Hrecs.
    rewrite length_seq in Hrecs. unfold Py.len. lia.
  - intros r (j & Hj)%list_elem_of_lookup_1.
    destruct (Forall2_lookup_r _ _ _ _ _ Hrecs Hj) as (i & _ & Hi).
    by eapply list_elem_of_lookup_2.
Qed.

Lemma ready_store_samples_witness :
  exists recs,
    _sample 5 (fun j => Z.of_nat j) wrapped_store = Returned recs wrapped_store /\
    Py.len recs = Z.max 5 0 /\
    forall r, r ∈ recs -> r ∈ _memory wrapped_store.
Proof.
  apply (ready_store_samples wrapped_store 5 (fun j => Z.of_nat j)).
  - reflexivity.
  - vm_compute. discriminate.
Defined.

(** X8: with a negative threshold the gate is open on the empty store, and
    sampling a positive batch there raises [ValueError]. *)
Theorem negative_threshold_opens_gate {A} memory_size sampling_start_size
    (k : Z) (rnd : nat -> Z) :
  sampling_start_size < 0 ->
  0 < k ->
  let self := __init__ (A := A) memory_size sampling_start_size in
  start_sample_condition self = true /\
  _sample k rnd self = Raised ValueError self.
Proof.
  intros Hthr Hk self. split.
  - unfold start_sample_condition, __len__. simpl. by apply Z.ltb_lt.
  - by apply sample_empty.
Qed.

Lemma negative_threshold_opens_gate_witness :
  let self := __init__ (A := nat) 3 (-1) in
  start_sample_condition self = true /\
  _sample 2 (fun _ => 0) self = Raised ValueError self.
Proof.
  apply (negative_threshold_opens_gate (A := nat) 3 (-1) 2 (fun _ => 0)); lia.
Defined.

(** ** Capacity zero *)

Lemma evict_negative_count {A} (self : UniformReplay A) n :
  0 <= _next_idx self <= Py.len (_memory self) -> n < 0 ->
  _evict n self =
    Raised AssertionError
      (set_memory (Py.del_slice (_memory self) (Some (_next_idx self))
                                (Some (_next_idx self + n))) self).
Proof.
  intros Hidx Hn.
  unfold _evict, bind, attr, assign, py_assert, ret, raise. simpl.
  destruct (Z.ltb_spec (Py.len (_memory self)) n); [lia|].
  destruct (Z.ltb_spec n (Py.len (_memory self) - _next_idx self)); [|lia].
  simpl.
  pose proof (len_nonneg (Py.slice (_memory self) (Some (_next_idx self))
                                   (Some (_next_idx self + n)))).
  destruct (Z.eqb_spec (Py.len (Py.slice (_memory self) (Some (_next_idx self))
                                   (Some (_next_idx self + n)))) n); [lia|done].
Qed.

(** With capacity 0 the cursor never leaves 0 and at most one record is
    stored, whatever is called and with whatever argument. *)
Lemma zero_capacity_call {A} sampling_start_size (c : call (A := A)) (m : list A) :
  (length m <= 1)%nat ->
  exists m',
    state_after (run_call c (mkReplay m 0 sampling_start_size 0))
      = mkReplay m' 0 sampling_start_size 0 /\
    (length m' <= 1)%nat.
Proof.
  intros Hm. destruct c as [x|k rnd|n]; simpl.
  - exists [x]. split; [|done]. by destruct m as [|y [|]]; [..|simpl in Hm; lia].
  - exists m. by rewrite sample_state.
  - assert (Hlen : Py.len m = Z.of_nat (length m)) by done.
    destruct (decide (n < 0)) as [Hneg|Hnonneg].
    { exists m. split; [|done].
      rewrite evict_negative_count by (simpl; lia). simpl.
      unfold set_memory. simpl. f_equal.
      unfold Py.del_slice, Py.clamp. simpl. rewrite Z.add_0_l.
      destruct (Z.ltb_spec n 0); [|lia].
      replace (Z.to_nat (Z.min 0 (Py.len m))) with 0%nat by lia.
      replace (Z.to_nat (Z.max (n + Py.len m) 0)) with 0%nat by lia.
      done. }
    destruct (decide (Py.len m < n)) as [Hall|Hpart].
    { exists []. rewrite evict_all by done. simpl. split; [done|lia]. }
    destruct (decide (n < Py.len m - 0)) as [Hfwd|Hwrap].
    + eexists. rewrite evict_forward by (simpl; lia). simpl.
      split; [reflexivity|]. rewrite length_drop. lia.
    + eexists. rewrite evict_wrap by (simpl; lia). simpl.
      replace (0 - (n - (Py.len m - 0))) with 0 by lia.
      split; [reflexivity|]. rewrite length_drop, length_take. lia.
Qed.

Lemma zero_capacity_state {A} sampling_start_size (h : list (call (A := A))) :
  exists m,
    replay 0 sampling_start_size h = mkReplay m 0 sampling_start_size 0 /\
    (length m <= 1)%nat.
Proof.
  induction h as [|c h (m & Hm & Hlen)] using rev_ind.
  - exists []. split; [done|simpl; lia].
  - rewrite replay_snoc, Hm. by apply zero_capacity_call.
Qed.

(** X9: a store built with capacity 0 raises [ZeroDivisionError] on every
    insert, after any history of calls, yet each time the record has been
    stored before the error: the store then holds that record alone, with
    the cursor at 0. *)
Theorem zero_capacity_insert {A} sampling_start_size
    (h : list (call (A := A))) (x : A) :
  _insert x (replay 0 sampling_start_size h)
  = Raised ZeroDivisionError (mkReplay [x] 0 sampling_start_size 0).
Proof.
  destruct (zero_capacity_state sampling_start_size h) as (m & -> & Hm).
  destruct m as [|y [|]]; [done..|simpl in Hm; lia].
Qed.

Example zero_capacity_history :
  _insert 9%nat
    (replay 0 5 [Insert 1%nat; Evict 0; Insert 2%nat; Sample 3 (fun _ => 7);
                 Evict (-4); Insert 3%nat; Evict 1; Evict 8])
  = Raised ZeroDivisionError (mkReplay [9%nat] 0 5 0).
Proof. reflexivity. Qed.


(** * Observation keys *)

Lemma matching_keys_filter (valid_keys keys acc : list string) :
  foldl (fun matching_keys key =>
           if bool_decide (key ∈ valid_keys)
           then matching_keys ++ [key]
           else matching_keys) acc keys
  = acc ++ filter (fun key => key ∈ valid_keys) keys.
Proof.
  revert acc. induction keys as [|key keys IH]; intros acc; simpl.
  - by rewrite app_nil_r.
  - rewrite IH, filter_cons. case_bool_decide.
    + rewrite decide_True by done. by rewrite <- (assoc (++)).
    + by rewrite decide_False by done.
Qed.

(** X10: for a configured modality the function returns the keys of the
    observation that are listed for the modality, each as often and in the
    order in which the observation has it: the result is a subsequence of
    the observation's keys, holds exactly the keys found in both, and has
    no duplicates when the observation has none. *)
Theorem matching_keys_spec {V} (obs : list (string * V)) (modality : string)
    (learner_config : learner_config_t) (valid_keys : list string) :
  input (model learner_config) !! modality = Some valid_keys ->
  exists matching_keys,
    get_matching_keys_for_modality obs modality learner_config = inr matching_keys /\
    matching_keys `sublist_of` obs.*1 /\
    (forall key, key ∈ matching_keys <-> key ∈ obs.*1 /\ key ∈ valid_keys) /\
    (NoDup (obs.*1) -> NoDup matching_keys).
Proof.
  intros Hvalid. unfold get_matching_keys_for_modality. rewrite Hvalid.
  eexists. split; [reflexivity|]. rewrite matching_keys_filter. simpl.
  split_and!.
  - apply sublist_filter.
  - intros key. rewrite list_elem_of_filter. tauto.
  - apply NoDup_filter.
Qed.

Lemma matching_keys_spec_witness :
  exists matching_keys,
    get_matching_keys_for_modality
      [("image", 0%nat); ("joint_vel", 1%nat); ("joint_pos", 2%nat);
       ("x", 3%nat); ("y", 4%nat)]
      "low_dim"
      (mkLearner (mkModel (<["pixel" := ["image"]]>
                          (<["low_dim" := ["joint_pos"; "joint_vel"]]> ∅))))
      = inr matching_keys /\
    matching_keys `sublist_of`
      [("image", 0%nat); ("joint_vel", 1%nat); ("joint_pos", 2%nat);
       ("x", 3%nat); ("y", 4%nat)].*1 /\
    (forall key, key ∈ matching_keys <->
       key ∈ [("image", 0%nat); ("joint_vel", 1%nat); ("joint_pos", 2%nat);
              ("x", 3%nat); ("y", 4%nat)].*1 /\
       key ∈ ["joint_pos"; "joint_vel"]) /\
    (NoDup ([("image", 0%nat); ("joint_vel", 1%nat); ("joint_pos", 2%nat);
             ("x", 3%nat); ("y", 4%nat)].*1) -> NoDup matching_keys).
Proof.
  apply (matching_keys_spec
           [("image", 0%nat); ("joint_vel", 1%nat); ("joint_pos", 2%nat);
            ("x", 3%nat); ("y", 4%nat)]
           "low_dim"
           (mkLearner (mkModel (<["pixel" := ["image"]]>
                               (<["low_dim" := ["joint_pos"; "joint_vel"]]> ∅))))
           ["joint_pos"; "joint_vel"]).
  reflexivity.
Defined.

(** The example of the docstring, and the order of the result when the
    configuration lists the keys in another order than the observation. *)
Example matching_keys_docstring :
  get_matching_keys_for_modality
    [("image", 0%nat); ("joint_vel", 1%nat); ("joint_pos", 2%nat);
     ("x", 3%nat); ("y", 4%nat)]
    "pixel"
    (mkLearner (mkModel (<["pixel" := ["image"]]>
                        (<["low_dim" := ["joint_pos"; "joint_vel"]]> ∅))))
  = inr ["image"].
Proof. reflexivity. Qed.

Example matching_keys_observation_order :
  get_matching_keys_for_modality
    [("image", 0%nat); ("joint_vel", 1%nat); ("joint_pos", 2%nat);
     ("x", 3%nat); ("y", 4%nat)]
    "low_dim"
    (mkLearner (mkModel (<["pixel" := ["image"]]>
                        (<["low_dim" := ["joint_pos"; "joint_vel"]]> ∅))))
  = inr ["joint_vel"; "joint_pos"].
Proof. reflexivity. Qed.

(** X11: the result depends on the keys listed for the modality only as a
    set: two configurations whose lists have the same members, in whatever
    order and multiplicity, give the same result. *)
Theorem matching_keys_extensional {V} (obs : list (string * V)) (modality : string)
    (config1 config2 : learner_config_t) (keys1 keys2 : list string) :
  input (model config1) !! modality = Some keys1 ->
  input (model config2) !! modality = Some keys2 ->
  (forall key, key ∈ keys1 <-> key ∈ keys2) ->
  get_matching_keys_for_modality obs modality config1
  = get_matching_keys_for_modality obs modality config2.
Proof.
  intros H1 H2 Hsame. unfold get_matching_keys_for_modality. rewrite H1, H2.
  f_equal. rewrite !matching_keys_filter. simpl.
  apply list_filter_iff. intros key. apply Hsame.
Qed.

Lemma matching_keys_extensional_witness :
  get_matching_keys_for_modality
    [("image", 0%nat); ("joint_vel", 1%nat); ("joint_pos", 2%nat)] "low_dim"
    (mkLearner (mkModel (<["low_dim" := ["joint_pos"; "joint_vel"]]> ∅)))
  = get_matching_keys_for_modality
      [("image", 0%nat); ("joint_vel", 1%nat); ("joint_pos", 2%nat)] "low_dim"
      (mkLearner (mkModel (<["low_dim" := ["joint_vel"; "joint_pos"; "joint_vel"]]> ∅))).
Proof.
  apply (matching_keys_extensional
           [("image", 0%nat); ("joint_vel", 1%nat); ("joint_pos", 2%nat)] "low_dim"
           (mkLearner (mkModel (<["low_dim" := ["joint_pos"; "joint_vel"]]> ∅)))
           (mkLearner (mkModel (<["low_dim" := ["joint_vel"; "joint_pos"; "joint_vel"]]> ∅)))
           ["joint_pos"; "joint_vel"] ["joint_vel"; "joint_pos"; "joint_vel"]).
  - reflexivity.
  - reflexivity.
  - intros key. rewrite !elem_of_cons, !elem_of_nil. tauto.
Defined.

(** * Name and label checks of the cluster client *)

(** ** Matching by derivatives decides the strings of an expression *)

Section RegexFacts.
Import Re.

Lemma nullable_spec r : nullable r = true <-> matches r [].
Proof.
  split.
  - induction r as [| |p|r1 IH1 r2 IH2|r1 IH1 r2 IH2|r IH]; simpl; intros H;
      try discriminate.
    + constructor.
    + apply andb_prop in H as [H1 H2].
      change (@nil ascii) with (@nil ascii ++ []). constructor; auto.
    + apply orb_prop in H as [H|H];
        [apply matches_alt_l|apply matches_alt_r]; auto.
    + constructor.
  - intros H. remember [] as s eqn:Es.
    induction H as [|p c Hc|r1 r2 s1 s2 _ IH1 _ IH2|r1 r2 s _ IH|r1 r2 s _ IH
                   |r|r s1 s2 _ _ _ _]; simpl; try done.
    + apply app_eq_nil in Es as [-> ->]. by rewrite IH1, IH2.
    + by rewrite IH.
    + rewrite IH by done. apply orb_true_r.
Qed.

Lemma deriv_sound c r s : matches (deriv c r) s -> matches r (c :: s).
Proof.
  revert s.
  induction r as [| |p|r1 IH1 r2 IH2|r1 IH1 r2 IH2|r IH]; simpl; intros s H.
  - inversion H.
  - inversion H.
  - destruct (p c) eqn:Hp; inversion H; subst. by constructor.
  - destruct (nullable r1) eqn:Hnull.
    + inversion H as [| | | ? ? ? Hl | ? ? ? Hr | |]; subst.
      * inversion Hl as [| |? ? s1 s2 H1 H2| | | |]; subst.
        change (c :: s1 ++ s2) with ((c :: s1) ++ s2). constructor; auto.
      * change (c :: s) with ([] ++ c :: s).
        constructor; [by apply nullable_spec|auto].
    + inversion H as [| |? ? s1 s2 H1 H2| | | |]; subst.
      change (c :: s1 ++ s2) with ((c :: s1) ++ s2). constructor; auto.
  - inversion H; subst; [apply matches_alt_l|apply matches_alt_r]; auto.
  - inversion H as [| |? ? s1 s2 H1 H2| | | |]; subst.
    change (c :: s1 ++ s2) with ((c :: s1) ++ s2). constructor; auto.
Qed.

Lemma deriv_complete c r s : matches r (c :: s) -> matches (deriv c r) s.
Proof.
  intros H. remember (c :: s) as cs eqn:Ecs. revert s Ecs.
  induction H as [|p c' Hc|r1 r2 s1 s2 H1 IH1 H2 IH2|r1 r2 s' _ IH|r1 r2 s' _ IH
                 |r|r s1 s2 H1 IH1 H2 IH2]; intros s Ecs; simpl; try discriminate.
  - injection Ecs as -> <-. rewrite Hc. constructor.
  - destruct s1 as [|c1 s1]; simpl in Ecs.
    + subst s2. apply nullable_spec in H1. rewrite H1.
      apply matches_alt_r. by apply IH2.
    + injection Ecs as -> <-.
      destruct (nullable r1); [apply matches_alt_l|]; constructor; auto.
  - apply matches_alt_l. auto.
  - apply matches_alt_r. auto.
  - destruct s1 as [|c1 s1]; simpl in Ecs.
    + by apply IH2.
    + injection Ecs as -> <-. constructor; auto.
Qed.

Lemma fullmatch_spec r s : fullmatch r s = true <-> matches r s.
Proof.
  revert r. induction s as [|c s IH]; intros r; simpl.
  - apply nullable_spec.
  - rewrite IH. split; [apply deriv_sound|apply deriv_complete].
Qed.

Lemma matches_class_inv p s : matches (Class p) s -> exists c, s = [c] /\ p c = true.
Proof. inversion 1; subst. eauto. Qed.

Lemma matches_star_class p s :
  matches (Star (Class p)) s <-> Forall (fun c => p c = true) s.
Proof.
  split.
  - intros H. remember (Star (Class p)) as r eqn:Er.
    induction H as [| | | | |r|r s1 s2 H1 _ H2 IH2]; try discriminate.
    + constructor.
    + injection Er as ->. apply matches_class_inv in H1 as (c & -> & Hc).
      simpl. constructor; auto.
  - induction 1 as [|c s Hc _ IH]; [constructor|].
    change (c :: s) with ([c] ++ s). constructor; [by constructor|done].
Qed.

Lemma matches_opt r s : matches (Opt r) s <-> matches r s \/ s = [].
Proof.
  unfold Opt. split.
  - inversion 1 as [| | |? ? ? Hl|? ? ? Hr| |]; subst; [by left|].
    inversion Hr. by right.
  - intros [H| ->]; [by apply matches_alt_l|apply matches_alt_r; constructor].
Qed.

Lemma matches_cat_inv r1 r2 s :
  matches (Cat r1 r2) s -> exists s1 s2, s = s1 ++ s2 /\ matches r1 s1 /\ matches r2 s2.
Proof. inversion 1; subst. eauto. Qed.

End RegexFacts.

(** ** [check_valid_dns] *)

Lemma lower_or_digit_hyphen c :
  lower_or_digit c = true -> lower_digit_or_hyphen c = true.
Proof.
  unfold lower_or_digit, lower_digit_or_hyphen. intros [H|H]%orb_prop; rewrite H.
  - by rewrite orb_true_r.
  - apply orb_true_r.
Qed.

Lemma forallb_Forall_true {B} (f : B -> bool) (l : list B) :
  forallb f l = true <-> Forall (fun b => f b = true) l.
Proof.
  induction l as [|b l IH]; simpl; [by split; [constructor|]|].
  rewrite andb_true_iff, IH. split.
  - intros [Hb Hl]. by constructor.
  - by inversion 1.
Qed.

Lemma dns_re_label body : Re.matches _DNS_RE body <-> dns_label body = true.
Proof.
  unfold _DNS_RE, dns_label. split.
  - intros (s1 & s2 & -> & (c & -> & Hc)%matches_class_inv & Hrest)%matches_cat_inv.
    apply matches_opt in Hrest as [Hrest| ->].
    + apply matches_cat_inv in Hrest
        as (mid & s3 & -> & Hmid%matches_star_class & (d & -> & Hd)%matches_class_inv).
      simpl. rewrite Hc. change (c :: mid ++ [d]) with ((c :: mid) ++ [d]).
      rewrite last_snoc. simpl. rewrite Hd, lower_or_digit_hyphen by done.
      simpl. rewrite forallb_app. simpl.
      rewrite lower_or_digit_hyphen, !andb_true_r by done.
      by apply forallb_Forall_true.
    + simpl. by rewrite Hc, lower_or_digit_hyphen.
  - intros [[Hall Hhead]%andb_prop Hlast]%andb_prop.
    destruct body as [|c rest]; [done|]. simpl in Hhead.
    change (c :: rest) with ([c] ++ rest).
    constructor; [by constructor|]. apply matches_opt.
    destruct rest as [|d mid _] using rev_ind; [by right|left].
    change (c :: mid ++ [d]) with ((c :: mid) ++ [d]) in Hlast, Hall.
    rewrite last_snoc in Hlast. simpl in Hlast.
    rewrite forallb_app in Hall. apply andb_prop in Hall as [Hall _].
    simpl in Hall. apply andb_prop in Hall as [_ Hmid].
    constructor; [|by constructor].
    apply matches_star_class. by apply forallb_Forall_true.
Qed.

(** X12: [check_valid_dns] accepts exactly the names that are a DNS label
    (lower-case letters, digits and hyphens, with a letter or digit first
    and last), and such a label followed by one final newline; every other
    name, the empty one included, is a [ValueError]. *)
Theorem check_valid_dns_spec (name : string) :
  let chars := String.list_ascii_of_string name in
  (check_valid_dns name = Ok tt <->
   dns_label chars = true \/
   exists body, chars = body ++ [Re.newline] /\ dns_label body = true) /\
  (check_valid_dns name <> Ok tt ->
   exists msg, check_valid_dns name = Error ValueError msg).
Proof.
  intros chars. unfold check_valid_dns, Re.match_to_dollar. fold chars.
  split.
  - destruct (Re.fullmatch _ chars) eqn:Hm; simpl.
    + split; [intros _|done]. apply fullmatch_spec in Hm.
      apply matches_cat_inv in Hm as (body & s2 & Hchars & Hbody & Hend).
      apply dns_re_label in Hbody.
      apply matches_opt in Hend as [(c & -> & Hc)%matches_class_inv| ->].
      * right. exists body. apply Ascii.eqb_eq in Hc as <-. done.
      * left. by rewrite Hchars, app_nil_r.
    + split; [done|]. intros Hlabel. exfalso.
      assert (Re.fullmatch
                (Re.Cat _DNS_RE (Re.Opt (Re.Class (Ascii.eqb Re.newline)))) chars
              = true) as Hyes; [|congruence].
      apply fullmatch_spec. destruct Hlabel as [Hbody|(body & -> & Hbody)].
      * rewrite <- (app_nil_r chars). constructor; [by apply dns_re_label|].
        apply matches_opt. by right.
      * constructor; [by apply dns_re_label|].
        apply matches_opt. left. constructor. apply Ascii.eqb_refl.
  - destruct (Re.fullmatch _ chars); simpl; [done|]. intros _. eauto.
Qed.

Example check_valid_dns_accepts :
  check_valid_dns "my-experiment-01" = Ok tt /\
  check_valid_dns ("my-experiment-01" +:+ String Re.newline "") = Ok tt.
Proof. by split. Qed.

Example check_valid_dns_rejects :
  Forall (fun name => exists msg, check_valid_dns name = Error ValueError msg)
         [""; "-a"; "a-"; "my_experiment"; "my.experiment"; "Experiment"; "a b"].
Proof. repeat constructor; eexists; reflexivity. Qed.

(** ** [_yamlify_label_string] *)

Lemma string_app_assoc (a b c : string) : (a +:+ b) +:+ c = a +:+ b +:+ c.
Proof.
  induction a as [|x a IH]; [done|].
  change (String x ((a +:+ b) +:+ c) = String x (a +:+ b +:+ c)). by f_equal.
Qed.

Lemma contains_app c (a b : string) :
  contains c (a +:+ b) = contains c a || contains c b.
Proof.
  induction a as [|c' a IH]; simpl; [done|]. by rewrite IH, orb_assoc.
Qed.

Lemma split1_at_first sep (a b : string) :
  contains sep a = false -> split1 sep (a +:+ String sep b) = [a; b].
Proof.
  induction a as [|c a IH]; simpl; intros Ha.
  - by rewrite Ascii.eqb_refl.
  - apply orb_false_elim in Ha as [Hc Ha]. by rewrite Hc, IH.
Qed.

Lemma contains_first sep (s : string) :
  contains sep s = true ->
  exists a b, s = a +:+ String sep b /\ contains sep a = false.
Proof.
  induction s as [|c s IH]; simpl; [done|].
  destruct (Ascii.eqb c sep) eqn:Hc; simpl.
  - intros _. apply Ascii.eqb_eq in Hc as ->. by exists EmptyString, s.
  - intros (a & b & -> & Ha)%IH. exists (String c a), b. simpl.
    by rewrite Hc, Ha.
Qed.

Lemma yamlify_nonempty (s : string) :
  s <> EmptyString ->
  _yamlify_label_string s =
    if negb (contains ":" s || contains "=" s) then
      Error AssertionError "label spec should look like <labelname>=<labelvalue>"
    else format_label (if contains ":" s then split1 ":" s else split1 "=" s).
Proof. by destruct s. Qed.

(** X13: [_yamlify_label_string] turns [name:value] into [name: value],
    splitting at the first colon even when an equals sign comes earlier,
    and turns [name=value] into [name: value] when the label has no colon,
    splitting at the first equals sign. *)
Theorem yamlify_splits_once (name value : string) :
  contains ":" name = false ->
  _yamlify_label_string (name +:+ String ":" value) = Ok (name +:+ ": " +:+ value) /\
  (contains "=" name = false -> contains ":" value = false ->
   _yamlify_label_string (name +:+ String "=" value) = Ok (name +:+ ": " +:+ value)).
Proof.
  intros Hname. split; [|intros Heq Hvalue].
  - rewrite yamlify_nonempty by by destruct name.
    rewrite contains_app. simpl. rewrite orb_true_r. simpl.
    by rewrite split1_at_first.
  - rewrite yamlify_nonempty by by destruct name.
    rewrite !contains_app. simpl. rewrite Hname, Hvalue, orb_true_r. simpl.
    by rewrite split1_at_first.
Qed.

Lemma yamlify_splits_once_witness :
  _yamlify_label_string ("surreal-node" +:+ String ":" "agent-pool")
    = Ok ("surreal-node" +:+ ": " +:+ "agent-pool") /\
  (contains "=" "surreal-node" = false -> contains ":" "agent-pool" = false ->
   _yamlify_label_string ("surreal-node" +:+ String "=" "agent-pool")
     = Ok ("surreal-node" +:+ ": " +:+ "agent-pool")).
Proof. apply (yamlify_splits_once "surreal-node" "agent-pool"). reflexivity. Defined.

(** X14: [_yamlify_label_string] fails exactly on a non-empty label that has
    neither a colon nor an equals sign, and then by its assertion; the
    empty label gives the empty string, and the formatting step never runs
    short of its two pieces. *)
Theorem yamlify_fails_iff (label_string : string) :
  ((exists e msg, _yamlify_label_string label_string = Error e msg) <->
   label_string <> EmptyString /\
   contains ":" label_string = false /\ contains "=" label_string = false) /\
  (forall e msg, _yamlify_label_string label_string = Error e msg ->
                 e = AssertionError) /\
  _yamlify_label_string EmptyString = Ok EmptyString.
Proof.
  split_and!; [|intros e msg|done].
  - destruct (decide (label_string = EmptyString)) as [->|Hne].
    { simpl. split; [by intros (e & msg & ?)|by intros [? _]]. }
    rewrite yamlify_nonempty by done.
    destruct (contains ":" label_string) eqn:Hcolon; simpl.
    + apply contains_first in Hcolon as (a & b & -> & Ha).
      rewrite split1_at_first by done. simpl.
      split; [by intros (e & msg & ?)|by intros (_ & ? & _)].
    + destruct (contains "=" label_string) eqn:Heq; simpl.
      * apply contains_first in Heq as (a & b & -> & Ha).
        rewrite split1_at_first by done. simpl.
        split; [by intros (e & msg & ?)|by intros (_ & _ & ?)].
      * split; [done|]. intros _. eauto.
  - destruct (decide (label_string = EmptyString)) as [->|Hne]; [done|].
    rewrite yamlify_nonempty by done.
    destruct (contains ":" label_string) eqn:Hcolon; simpl.
    + apply contains_first in Hcolon as (a & b & -> & Ha).
      by rewrite split1_at_first.
    + destruct (contains "=" label_string) eqn:Heq; simpl.
      * apply contains_first in Heq as (a & b & -> & Ha).
        by rewrite split1_at_first.
      * by intros [= <- _].
Qed.

(** X15: the pool labels that [create_surreal] builds, ['surreal-node=' +
    label], never fail; without a colon in the label the result is
    [surreal-node: label], and a colon in the label moves the split there,
    leaving [surreal-node=] inside the key. *)
Theorem yamlify_pool_label (label before after : string) :
  (contains ":" label = false ->
   _yamlify_label_string ("surreal-node=" +:+ label)
     = Ok ("surreal-node: " +:+ label)) /\
  (label = before +:+ String ":" after -> contains ":" before = false ->
   _yamlify_label_string ("surreal-node=" +:+ label)
     = Ok ("surreal-node=" +:+ before +:+ ": " +:+ after)).
Proof.
  split.
  - intros Hlabel. rewrite yamlify_nonempty by done.
    rewrite (contains_app ":" "surreal-node=" label), Hlabel.
    rewrite (contains_app "=" "surreal-node=" label). simpl. done.
  - intros -> Hbefore.
    assert (Hprefix : contains ":" "surreal-node=" = false) by done.
    set (prefix := "surreal-node=") in *. clearbody prefix.
    rewrite yamlify_nonempty by (by destruct prefix, before).
    rewrite <- !string_app_assoc.
    rewrite (contains_app ":" (prefix +:+ before)). simpl.
    rewrite orb_true_r. simpl.
    rewrite (split1_at_first ":" (prefix +:+ before) after).
    + simpl. by rewrite !string_app_assoc.
    + by rewrite contains_app, Hprefix, Hbefore.
Qed.

Lemma yamlify_pool_label_witness :
  (contains ":" "agent-pool" = false ->
   _yamlify_label_string ("surreal-node=" +:+ "agent-pool")
     = Ok ("surreal-node: " +:+ "agent-pool")) /\
  ("agent-pool" = "agent-pool" +:+ String ":" "" -> contains ":" "agent-pool" = false ->
   _yamlify_label_string ("surreal-node=" +:+ "agent-pool")
     = Ok ("surreal-node=" +:+ "agent-pool" +:+ ": " +:+ "")).
Proof. apply (yamlify_pool_label "agent-pool" "agent-pool" ""). Defined.

Example yamlify_pool_label_with_colon :
  _yamlify_label_string ("surreal-node=" +:+ "gpu:k80") = Ok "surreal-node=gpu: k80".
Proof. reflexivity. Qed.
